(** * Substreams: block ranges, work planning, WASM instances and executors

    A shallow embedding of the Go sources

    - [block/range.go]             (package [block]),
    - [orchestrator] work planning (package [orchestrator]),
    - [wasm/instance.go]           (package [wasm]),
    - [pipeline/executor.go]       (package [pipeline]),
    - the max-policy store writes exercised by [state/store_max_test.go],

    together with the properties the specification states about them.

    Conventions.  A Go [uint64] is a [Z] in [0, 2^64) and every addition or
    subtraction of the source is written with its wrap-around ([add64],
    [sub64]).  A Go loop without a syntactic bound is a [Fixpoint] on a fuel
    argument; [None] / [OutOfFuel] means the fuel ran out, and every result
    about a returned value comes with enough fuel to return it. *)

From Stdlib Require Import ZArith Lia List String DecimalString DecimalZ.
From stdpp Require Import base option list gmap strings.

Local Open Scope Z_scope.

(** ** Machine integers *)

Definition uint64_modulus : Z := 2 ^ 64.
Definition wrap64 (z : Z) : Z := z mod uint64_modulus.
Definition add64 (a b : Z) : Z := wrap64 (a + b).
Definition sub64 (a b : Z) : Z := wrap64 (a - b).
Definition is_uint64 (z : Z) : Prop := 0 <= z < uint64_modulus.

(** ** Byte slices and call outcomes *)

(** A Go [[]byte]: [nil] or a (possibly empty) sequence of bytes. *)
Inductive bytes : Type :=
| nil_bytes
| slice (data : list Byte.byte).

Definition len (b : bytes) : Z :=
  match b with
  | nil_bytes => 0
  | slice data => Z.of_nat (length data)
  end.

(** What a call yields: a value, a Go [panic], or (in the model only) a loop
    that was cut short by the fuel. *)
Inductive outcome (A : Type) : Type :=
| Done (a : A)
| Panicked (msg : string)
| OutOfFuel.
Arguments Done {A} a.
Arguments Panicked {A} msg.
Arguments OutOfFuel {A}.

(** ** Package [block] *)

Module block.

Record Range := mkRange { StartBlock : Z; ExclusiveEndBlock : Z }.

(** Modelled from the spec: [block.NewRange], which the orchestrator calls,
    is not declared in [range.go]; a block range is "a half-open interval
    [start, endExclusive)", so the constructor builds the range from its two
    bounds. *)
Definition NewRange (startBlock exclusiveEndBlock : Z) : Range :=
  {| StartBlock := startBlock; ExclusiveEndBlock := exclusiveEndBlock |}.

Definition Ranges := list Range.

(** [Contains]: the block number of the reference lies in [start, end). *)
Definition Contains (r : Range) (num : Z) : bool :=
  (StartBlock r <=? num) && (num <? ExclusiveEndBlock r).

Definition Next (r : Range) (size : Z) : Range :=
  {| StartBlock := ExclusiveEndBlock r;
     ExclusiveEndBlock := add64 (ExclusiveEndBlock r) size |}.

Definition Previous (r : Range) (size : Z) : Range :=
  {| StartBlock := sub64 (StartBlock r) size;
     ExclusiveEndBlock := StartBlock r |}.

Definition Equals (r other : Range) : bool :=
  (StartBlock r =? StartBlock other)
  && (ExclusiveEndBlock r =? ExclusiveEndBlock other).

Definition Size (r : Range) : Z :=
  sub64 (ExclusiveEndBlock r) (StartBlock r).

(** The [for { ... }] loop of [Split].  One unit of fuel is one iteration:
    the range [currentStart, currentEnd) is appended, the loop breaks when
    [currentEnd >= r.ExclusiveEndBlock], and otherwise the window moves on by
    [chunkSize] (a wrapping [uint64] addition) and is clipped at the end of
    [r]. *)
Fixpoint Split_loop (fuel : nat) (r : Range) (chunkSize : Z)
    (currentStart currentEnd : Z) (res : list Range) : option (list Range) :=
  match fuel with
  | O => None
  | S fuel' =>
      let res := res ++ [ {| StartBlock := currentStart;
                             ExclusiveEndBlock := currentEnd |} ] in
      if currentEnd >=? ExclusiveEndBlock r then Some res
      else
        let currentStart := currentEnd in
        let currentEnd := add64 currentStart chunkSize in
        let currentEnd :=
          if currentEnd >? ExclusiveEndBlock r
          then ExclusiveEndBlock r else currentEnd in
        Split_loop fuel' r chunkSize currentStart currentEnd res
  end.

Definition Split (fuel : nat) (r : Range) (chunkSize : Z)
  : option (list Range) :=
  if sub64 (ExclusiveEndBlock r) (StartBlock r) <=? chunkSize
  then Some [r]
  else Split_loop fuel r chunkSize
         (StartBlock r) (add64 (StartBlock r) chunkSize) [].

Definition Len (r : Ranges) : nat := length r.

(** Modelled from the spec: [Ranges.Merged], used by the work unit, is not
    declared in [range.go]; on a sorted collection it "coalesces
    adjacent/overlapping" ranges.  [cur] is the range being grown. *)
Fixpoint Merged_from (cur : Range) (rest : list Range) : list Range :=
  match rest with
  | [] => [cur]
  | r :: rest' =>
      if StartBlock r <=? ExclusiveEndBlock cur
      then Merged_from
             {| StartBlock := StartBlock cur;
                ExclusiveEndBlock :=
                  Z.max (ExclusiveEndBlock cur) (ExclusiveEndBlock r) |} rest'
      else cur :: Merged_from r rest'
  end.

Definition Merged (r : Ranges) : Ranges :=
  match r with
  | [] => []
  | first :: rest => Merged_from first rest
  end.

(** A list of ranges laid end to end from [a] to [b]: the first starts at
    [a], each next one starts where the previous one ends, the last ends at
    [b], and no range is reversed. *)
Fixpoint chained (a b : Z) (l : list Range) : Prop :=
  match l with
  | [] => a = b
  | s :: l' =>
      StartBlock s = a /\ StartBlock s <= ExclusiveEndBlock s
      /\ chained (ExclusiveEndBlock s) b l'
  end.

(** The blocks of [r] are exactly the blocks of the ranges of [l]. *)
Definition covers (l : list Range) (r : Range) : Prop :=
  forall n : Z, (exists s, s ∈ l /\ Contains s n = true) <-> Contains r n = true.

(** No block belongs to two ranges at different positions of [l]. *)
Definition pairwise_disjoint (l : list Range) : Prop :=
  forall (i j : nat) (s t : Range) (n : Z),
    i <> j -> l !! i = Some s -> l !! j = Some t ->
    ~ (Contains s n = true /\ Contains t n = true).

(** Every range but the last has size exactly [k]; the last has size at most
    [k]. *)
Fixpoint chunked (k : Z) (l : list Range) : Prop :=
  match l with
  | [] => True
  | [s] => Size s <= k
  | s :: l' => Size s = k /\ chunked k l'
  end.

(** [Ranges] as a [sort.Interface].  An index is a Go [int]; indexing
    outside [0, len) panics. *)
Definition index (r : Ranges) (i : Z) : option Range :=
  if i <? 0 then None else r !! Z.to_nat i.

Definition Less (r : Ranges) (i j : Z) : outcome bool :=
  match index r i, index r j with
  | Some a, Some b => Done (StartBlock a <? StartBlock b)
  | _, _ => Panicked "index out of range"
  end.

(** [r[i], r[j] = r[j], r[i]]: both elements are read, then [r[i]] and
    [r[j]] are written in that order. *)
Definition Swap (r : Ranges) (i j : Z) : outcome Ranges :=
  match index r i, index r j with
  | Some a, Some b => Done (<[Z.to_nat j := a]> (<[Z.to_nat i := b]> r))
  | _, _ => Panicked "index out of range"
  end.

End block.

(** ** Package [orchestrator] *)

Module orchestrator.
Import block.

(** Modelled from the spec: the snapshots catalog ([Snapshots], with
    [LastCompleteSnapshotBefore] and [ContainsPartial]) is not under the
    sources.  It is the "catalog of existing complete and partial store files
    for a module"; the planner asks it for "the latest complete snapshot [S]
    with [S.end <= requestStart] (or none)" and whether "a partial file
    exists on storage" for a range. *)
Record Snapshots := { Completes : Ranges; Partials : Ranges }.

Definition later_complete (blockNum : Z) (best : option Range) (c : Range)
  : option Range :=
  if ExclusiveEndBlock c <=? blockNum then
    match best with
    | Some b =>
        if ExclusiveEndBlock b <? ExclusiveEndBlock c then Some c else best
    | None => Some c
    end
  else best.

(** Modelled from the spec: the complete snapshot with the greatest end among
    those ending at or before [blockNum]. *)
Definition LastCompleteSnapshotBefore (s : Snapshots) (blockNum : Z)
  : option Range :=
  foldl (later_complete blockNum) None (Completes s).

(** Modelled from the spec: a partial file for exactly this range exists. *)
Definition ContainsPartial (s : Snapshots) (r : Range) : bool :=
  existsb (fun file => Equals file r) (Partials s).

Record WorkUnit := {
  modName : string;
  initialStoreFile : option Range;
  partialsMissing : Ranges;
  partialsPresent : Ranges
}.

Definition initialProcessedPartials (w : WorkUnit) : Ranges :=
  Merged (partialsPresent w).

Definition minOf (a b : Z) : Z := if a <? b then a else b.

(** [ptr - ptr%saveInterval + saveInterval] in [uint64] arithmetic. *)
Definition nextBoundary (ptr saveInterval : Z) : Z :=
  add64 (sub64 ptr (ptr mod saveInterval)) saveInterval.

(** The planning loop [for ptr := backProcessStartBlock; ptr < requestStart; ]
    which [MapsSplitWork] and [StoresSplitWork] both end with, word for word.
    One unit of fuel is one iteration.  [ptr % saveInterval] panics in Go when
    [saveInterval] is 0. *)
Fixpoint splitLoop (fuel : nat) (saveInterval requestStartBlock : Z)
    (snapshots : Snapshots) (ptr : Z) (work : WorkUnit) : outcome WorkUnit :=
  if ptr <? requestStartBlock then
    match fuel with
    | O => OutOfFuel
    | S fuel' =>
        if saveInterval =? 0 then Panicked "integer divide by zero"
        else
          let end_ := minOf (nextBoundary ptr saveInterval) requestStartBlock in
          let newPartial := NewRange ptr end_ in
          let work :=
            if negb (ContainsPartial snapshots newPartial)
            then {| modName := modName work;
                    initialStoreFile := initialStoreFile work;
                    partialsMissing := partialsMissing work ++ [newPartial];
                    partialsPresent := partialsPresent work |}
            else {| modName := modName work;
                    initialStoreFile := initialStoreFile work;
                    partialsMissing := partialsMissing work;
                    partialsPresent := partialsPresent work ++ [newPartial] |}
          in
          splitLoop fuel' saveInterval requestStartBlock snapshots end_ work
    end
  else Done work.

Definition newWorkUnit (name : string) : WorkUnit :=
  {| modName := name; initialStoreFile := None;
     partialsMissing := []; partialsPresent := [] |}.

Definition withInitialStoreFile (work : WorkUnit) (f : Range) : WorkUnit :=
  {| modName := modName work; initialStoreFile := Some f;
     partialsMissing := partialsMissing work;
     partialsPresent := partialsPresent work |}.

Definition MapsSplitWork (fuel : nat) (modName : string)
    (saveInterval requestStartBlock : Z) (snapshots : Snapshots)
  : outcome WorkUnit :=
  let work := newWorkUnit modName in
  match LastCompleteSnapshotBefore snapshots requestStartBlock with
  | Some completeSnapshot =>
      let backProcessStartBlock := ExclusiveEndBlock completeSnapshot in
      let work :=
        withInitialStoreFile work
          (NewRange requestStartBlock (ExclusiveEndBlock completeSnapshot)) in
      if ExclusiveEndBlock completeSnapshot =? requestStartBlock then Done work
      else splitLoop fuel saveInterval requestStartBlock snapshots
             backProcessStartBlock work
  | None =>
      splitLoop fuel saveInterval requestStartBlock snapshots
        requestStartBlock work
  end.

Definition StoresSplitWork (fuel : nat) (modName : string)
    (storeSaveInterval modInitBlock incomingReqStartBlock : Z)
    (snapshots : Snapshots) : outcome WorkUnit :=
  let work := newWorkUnit modName in
  if incomingReqStartBlock <=? modInitBlock then Done work
  else
    match LastCompleteSnapshotBefore snapshots incomingReqStartBlock with
    | Some completeSnapshot =>
        if ExclusiveEndBlock completeSnapshot <=? modInitBlock
        then Panicked "cannot have saved last store before module's init block"
        else
          let backProcessStartBlock := ExclusiveEndBlock completeSnapshot in
          let work :=
            withInitialStoreFile work
              (NewRange modInitBlock (ExclusiveEndBlock completeSnapshot)) in
          if ExclusiveEndBlock completeSnapshot =? incomingReqStartBlock
          then Done work
          else splitLoop fuel storeSaveInterval incomingReqStartBlock
                 snapshots backProcessStartBlock work
    | None =>
        splitLoop fuel storeSaveInterval incomingReqStartBlock snapshots
          modInitBlock work
    end.

(** The progress message of the wire protocol. *)
Record BlockRange := { pbStartBlock : Z; pbEndBlock : Z }.
Record ModuleProgress := { Name : string; ProcessedRanges : list BlockRange }.

Definition toBlockRange (rng : Range) : BlockRange :=
  {| pbStartBlock := StartBlock rng; pbEndBlock := ExclusiveEndBlock rng |}.

(** The body of the loop of [ProgressMessages] for one entry of the plan:
    the messages it appends to [out]. *)
Definition progressOf (storeName : string) (unit : WorkUnit)
  : list ModuleProgress :=
  match initialStoreFile unit with
  | None => []
  | Some _ =>
      let more : list BlockRange := [] in
      let more :=
        match initialStoreFile unit with
        | Some f => more ++ [toBlockRange f]
        | None => more
        end in
      let more :=
        foldl (fun more rng => more ++ [toBlockRange rng]) more
          (initialProcessedPartials unit) in
      [ {| Name := storeName; ProcessedRanges := more |} ]
  end.

(** [WorkPlan] is a Go map from module name to work unit; the loop visits
    its entries in an unspecified order, here the order of [map_to_list]. *)
Definition ProgressMessages (p : gmap string WorkUnit) : list ModuleProgress :=
  foldl (fun out '(storeName, unit) => out ++ progressOf storeName unit) []
    (map_to_list p).

(** The error of [SquashPartialsPresent]:
    [fmt.Errorf("squash partials present for module %s: %w", modName, err)]. *)
Inductive error (E : Type) : Type :=
| SquashFailed (modName : string) (cause : E).
Arguments SquashFailed {E} modName cause.

(** The loop of [SquashPartialsPresent] over the entries of the plan.
    [Squasher.Squash] is not under the sources: it is taken as a parameter,
    a transformer of the squasher that may fail with an error of type [E]. *)
Fixpoint squashLoop {S E : Type}
    (Squash : S -> string -> Ranges -> S * option E)
    (units : list (string * WorkUnit)) (squasher : S)
  : S * option (error E) :=
  match units with
  | [] => (squasher, None)
  | (_, w) :: rest =>
      if (Len (partialsPresent w) =? 0)%nat
      then squashLoop Squash rest squasher
      else
        match Squash squasher (modName w) (partialsPresent w) with
        | (squasher', Some err) =>
            (squasher', Some (SquashFailed (modName w) err))
        | (squasher', None) => squashLoop Squash rest squasher'
        end
  end.

Definition SquashPartialsPresent {S E : Type}
    (Squash : S -> string -> Ranges -> S * option E)
    (p : gmap string WorkUnit) (squasher : S) : S * option (error E) :=
  squashLoop Squash (map_to_list p) squasher.

End orchestrator.

(** ** Package [pbsubstreams] (the parts the executors read) *)

Module pbsubstreams.

Record Clock := { Number : Z; Id : string; Timestamp : Z }.

End pbsubstreams.

(** ** Package [wasm] *)

Module wasm.
Import pbsubstreams.

(** Modelled from the spec: [PanicError] is not declared in [instance.go];
    [register_panic(msg, file, line, col)] "records a structured panic". *)
Record PanicError := {
  message : string; filename : string; lineNumber : Z; columnNumber : Z
}.

(** Go [error] values met in this package: the [*sys.ExitError] of the
    engine, any other engine error (a trap), the recorded [*PanicError], and
    [fmt.Errorf(format, arg, cause)] wrapping a cause with [%w]. *)
Inductive error : Type :=
| ExitError (exitCode : Z)
| Trap (reason : string)
| Panic (p : PanicError)
| Errorf (format : string) (arg : string) (cause : error).

(** The slots of an instance that host functions write while the guest
    runs. *)
Record Slots := {
  returnValue : bytes;
  panicError : option PanicError;
  Logs : list string;
  LogsByteCount : Z
}.

(** [api.Function.Call]: running the guest entry point on its arguments may
    call back into the host, which writes the slots; it yields the engine's
    error, if any. *)
Definition Function : Type := list Z -> Slots -> Slots * option error.

Record Instance := {
  entrypoint : Function;
  args : list Z;
  valueType : string;
  functionName : string;
  moduleName : string;
  slots : Slots
}.

Definition withSlots (i : Instance) (st : Slots) : Instance :=
  {| entrypoint := entrypoint i; args := args i; valueType := valueType i;
     functionName := functionName i; moduleName := moduleName i;
     slots := st |}.

(** The error is a [sys.ExitError] and its [ExitCode()] is 0. *)
Definition isCleanExit (err : error) : bool :=
  match err with
  | ExitError code => code =? 0
  | _ => false
  end.

(** [Execute]: the instance after the call, and the returned error ([None]
    is Go's [nil]).  The [fmt.Println] of the panic is not modelled. *)
Definition Execute (i : Instance) : Instance * option error :=
  let '(st, err) := entrypoint i (args i) (slots i) in
  let i := withSlots i st in
  match err with
  | Some err =>
      if isCleanExit err then (i, None)
      else
        match panicError (slots i) with
        | Some p => (i, Some (Panic p))
        | None =>
            (i, Some (Errorf "executing entrypoint %q: %w" (functionName i)
                        err))
        end
  | None => (i, None)
  end.

Definition ExecuteWithArgs (i : Instance) (args : list Z)
  : Instance * option error :=
  let '(st, err) := entrypoint i args (slots i) in
  let i := withSlots i st in
  match err with
  | Some err =>
      if isCleanExit err then (i, None)
      else
        match panicError (slots i) with
        | Some p => (i, Some (Panic p))
        | None =>
            (i, Some (Errorf "executing with args entrypoint %q: %w"
                        (functionName i) err))
        end
  | None => (i, None)
  end.

Definition Err (i : Instance) : option error := Panic <$> panicError (slots i).

Definition Output (i : Instance) : bytes := returnValue (slots i).

Definition maxLogByteCount : Z := 128 * 1024.

Definition ReachedLogsMaxByteCount (i : Instance) : bool :=
  LogsByteCount (slots i) >=? maxLogByteCount.

(** The kinds of module input.  [wasm.InputType] and [wasm.Input] are not
    declared under the sources; the executor names three values of the
    integer type and panics on any other, and reads and writes the three
    fields below. *)
Inductive InputType : Type :=
| InputSource
| InputStore
| OutputStore
| OtherInputType (n : Z).

Record Input := { Type_ : InputType; Name : string; StreamData : bytes }.

(** [wasm.Module] is not under the sources: what the executor calls on it is
    taken as a parameter. *)
Record Module := {
  NewInstance : Clock -> list Input -> error + Instance;
  HeapClear : Instance -> option error;
  ExecutionStack : Instance -> list string
}.


(** [byte(v)]: the low eight bits. *)
Definition byteOf (v : Z) : Byte.byte :=
  default Byte.x00 (Byte.of_N (Z.to_N (v mod 256))).

(** [binary.LittleEndian.PutUint32] and [Uint32] on a four-byte window. *)
Definition PutUint32 (v : Z) : list Byte.byte :=
  [byteOf v; byteOf (Z.shiftr v 8); byteOf (Z.shiftr v 16);
   byteOf (Z.shiftr v 24)].

Definition Uint32 (b : list Byte.byte) : Z :=
  match b with
  | b0 :: b1 :: b2 :: b3 :: _ =>
      Z.lor (Z.of_N (Byte.to_N b0))
        (Z.lor (Z.shiftl (Z.of_N (Byte.to_N b1)) 8)
           (Z.lor (Z.shiftl (Z.of_N (Byte.to_N b2)) 16)
              (Z.shiftl (Z.of_N (Byte.to_N b3)) 24)))
  | _ => 0
  end.

(** The eight-byte record [WriteOutputToHeap] builds: the pointer to the
    value, then [uint32(len(value))]. *)
Definition responseRecord (valuePtr : Z) (value : list Byte.byte)
  : list Byte.byte :=
  PutUint32 valuePtr ++ PutUint32 (Z.of_nat (length value) mod 2 ^ 32).

(** [Heap.Write] and [Heap.WriteAtPtr] are not under the sources: they are
    taken as parameters over the state [H] of the heap and the guest
    memory.  [Write] yields the pointer it wrote at, or an error. *)
Definition WriteOutputToHeap {H : Type}
    (Write : H -> list Byte.byte -> H * (error + Z))
    (WriteAtPtr : H -> list Byte.byte -> Z -> H * option error)
    (h : H) (outputPtr : Z) (value : list Byte.byte) : H * option error :=
  match Write h value with
  | (h, inl err) =>
      (h, Some (Errorf "writting value to heap: %w" EmptyString err))
  | (h, inr valuePtr) =>
      let returnValue := responseRecord valuePtr value in
      match WriteAtPtr h returnValue outputPtr with
      | (h, Some err) =>
          (h, Some (Errorf "writing response at valuePtr %d: %w"
                      (NilZero.string_of_int (Z.to_int valuePtr)) err))
      | (h, None) => (h, None)
      end
  end.
End wasm.

(** ** Package [outputs] *)

Module outputs.
Import block pbsubstreams.

(** Modelled from the spec: the output cache is not under the sources.  A
    chunk "stores a mapping from block number to {cursor, payload}";
    [get(clock)] yields "(bytes, hit) for a specific block", and
    [set(clock, cursor, bytes)] "records an entry; panics iff clock.number is
    outside the current chunk's range". *)
Record CacheItem := { Cursor : string; Payload : bytes }.

(** Modelled from the spec: the chunk being written, with the range it
    covers. *)
Record OutputCache := {
  CurrentBlockRange : Range;
  kv : gmap Z CacheItem
}.

(** Modelled from the spec: [OutputCache.Get], "(bytes, hit) for a specific
    block". *)
Definition Get (c : OutputCache) (clock : Clock) : bytes * bool :=
  match kv c !! Number clock with
  | Some item => (Payload item, true)
  | None => (nil_bytes, false)
  end.

(** Modelled from the spec: [OutputCache.Set], which "records an entry;
    panics iff clock.number is outside the current chunk's range"; it returns
    no error of its own. *)
Definition Set_ (c : OutputCache) (clock : Clock) (cursor : string)
    (data : bytes) : outcome (OutputCache * option wasm.error) :=
  if Contains (CurrentBlockRange c) (Number clock) then
    Done ({| CurrentBlockRange := CurrentBlockRange c;
             kv := <[Number clock := {| Cursor := cursor; Payload := data |}]>
                     (kv c) |}, None)
  else Panicked "block outside of the current cache range".

End outputs.

(** ** Package [pipeline]: the mapper executor *)

Module pipeline.
Import pbsubstreams.

Record ErrorExecutor := { message : wasm.error; stackTrace : list string }.

(** The errors the executor returns; each constructor is one [fmt.Errorf]
    of the source, with the values it formats. *)
Inductive error : Type :=
| NewInstanceFailed (cause : wasm.error)
| ExecutionFailed (blockNum : Z) (moduleName : string) (e : ErrorExecutor)
| HeapClearFailed (blockNum : Z) (moduleName : string) (cause : wasm.error)
| CacheSetFailed (blockNum : Z) (cause : wasm.error).

Record BaseExecutor := {
  moduleName : string;
  wasmModule : wasm.Module;
  wasmInputs : list wasm.Input;
  cache : outputs.OutputCache;
  isOutput : bool;
  entrypoint : string
}.

Record MapperModuleExecutor := {
  base : BaseExecutor;
  outputType : string;
  mapperOutput : bytes
}.

(** Calls that leave the executor: into the WASM engine and into the cache
    writer.  They are logged so that "no instance is created" and "nothing is
    written back" can be stated. *)
Inductive Event : Type :=
| CallNewInstance (blockNum : Z)
| CallExecute (blockNum : Z)
| CallCacheSet (blockNum : Z).

(** What [run] reads and writes: the executor behind the receiver pointer,
    the per-block [vals] map shared with the pipeline, and the log of
    outgoing calls. *)
Record State := {
  executor : MapperModuleExecutor;
  vals : gmap string bytes;
  events : list Event
}.

(** A state monad over [State] in which a computation may panic. *)
Definition M (A : Type) : Type := State -> outcome (A * State).

#[export] Instance M_ret : MRet M := fun A a st => Done (a, st).
#[export] Instance M_bind : MBind M := fun A B f m st =>
  match m st with
  | Done (a, st') => f a st'
  | Panicked msg => Panicked msg
  | OutOfFuel => OutOfFuel
  end.

Definition getState : M State := fun st => Done (st, st).
Definition emit (ev : Event) : M unit := fun st =>
  Done (tt, {| executor := executor st; vals := vals st;
               events := events st ++ [ev] |}).
Definition liftOutcome {A} (o : outcome A) : M A := fun st =>
  match o with
  | Done a => Done (a, st)
  | Panicked msg => Panicked msg
  | OutOfFuel => OutOfFuel
  end.
Definition setWasmInputs (inputs : list wasm.Input) : M unit := fun st =>
  let e := executor st in
  let b := base e in
  Done (tt, {| executor :=
                 {| base := {| moduleName := moduleName b;
                               wasmModule := wasmModule b;
                               wasmInputs := inputs;
                               cache := cache b;
                               isOutput := isOutput b;
                               entrypoint := entrypoint b |};
                    outputType := outputType e;
                    mapperOutput := mapperOutput e |};
               vals := vals st; events := events st |}).
Definition setMapperOutput (out : bytes) : M unit := fun st =>
  let e := executor st in
  Done (tt, {| executor := {| base := base e; outputType := outputType e;
                              mapperOutput := out |};
               vals := vals st; events := events st |}).
Definition setVal (name : string) (out : bytes) : M unit := fun st =>
  Done (tt, {| executor := executor st; vals := <[name := out]> (vals st);
               events := events st |}).
Definition setCache (c : outputs.OutputCache) : M unit := fun st =>
  let e := executor st in
  let b := base e in
  Done (tt, {| executor :=
                 {| base := {| moduleName := moduleName b;
                               wasmModule := wasmModule b;
                               wasmInputs := wasmInputs b;
                               cache := c;
                               isOutput := isOutput b;
                               entrypoint := entrypoint b |};
                    outputType := outputType e;
                    mapperOutput := mapperOutput e |};
               vals := vals st; events := events st |}).

Definition withStreamData (input : wasm.Input) (data : bytes) : wasm.Input :=
  {| wasm.Type_ := wasm.Type_ input; wasm.Name := wasm.Name input;
     wasm.StreamData := data |}.

(** The [for _, input := range e.wasmInputs] loop of [wasmCall]: the inputs
    with their stream data bound (they are pointers, written in place) and
    the final [hasInput].  A missing key of [vals] reads as [nil]. *)
Fixpoint bindInputs (vals : gmap string bytes) (inputs : list wasm.Input)
    (hasInput : bool) : outcome (list wasm.Input * bool) :=
  match inputs with
  | [] => Done ([], hasInput)
  | input :: rest =>
      let continue (input : wasm.Input) (hasInput : bool) :=
        match bindInputs vals rest hasInput with
        | Done (rest', hasInput') => Done (input :: rest', hasInput')
        | Panicked msg => Panicked msg
        | OutOfFuel => OutOfFuel
        end in
      match wasm.Type_ input with
      | wasm.InputSource =>
          let val := default nil_bytes (vals !! wasm.Name input) in
          if negb (len val =? 0)
          then continue (withStreamData input val) true
          else continue (withStreamData input nil_bytes) hasInput
      | wasm.InputStore => continue input true
      | wasm.OutputStore => continue input hasInput
      | wasm.OtherInputType _ => Panicked "Invalid input type"
      end
  end.

Definition wasmCall (clock : Clock) : M (option wasm.Instance * option error) :=
  st ← getState;
  let b := base (executor st) in
  '(inputs, hasInput) ← liftOutcome (bindInputs (vals st) (wasmInputs b) false);
  _ ← setWasmInputs inputs;
  if hasInput : bool then
    _ ← emit (CallNewInstance (Number clock));
    match wasm.NewInstance (wasmModule b) clock inputs with
    | inl err => mret (None, Some (NewInstanceFailed err))
    | inr instance =>
        _ ← emit (CallExecute (Number clock));
        let '(instance, err) := wasm.Execute instance in
        match err with
        | Some err =>
            let errExecutor :=
              {| message := err;
                 stackTrace := wasm.ExecutionStack (wasmModule b) instance |} in
            mret (None, Some (ExecutionFailed (Number clock) (moduleName b)
                                errExecutor))
        | None =>
            match wasm.HeapClear (wasmModule b) instance with
            | Some err =>
                mret (None, Some (HeapClearFailed (Number clock)
                                    (moduleName b) err))
            | None => mret (Some instance, None)
            end
        end
    end
  else mret (None, None).

Definition wasmMapCall (clock : Clock) : M (option error) :=
  '(vm, err) ← wasmCall clock;
  match err with
  | Some err => mret (Some err)
  | None =>
      st ← getState;
      let name := moduleName (base (executor st)) in
      match vm with
      | Some vm =>
          let out := wasm.Output vm in
          _ ← setVal name out;
          _ ← setMapperOutput out;
          mret None
      | None =>
          _ ← setVal name nil_bytes;
          _ ← setMapperOutput nil_bytes;
          mret None
      end
  end.

(** [MapperModuleExecutor.run]; the tracing span is not modelled. *)
Definition run (clock : Clock) (cursor : string) : M (option error) :=
  st ← getState;
  let '(output, found) := outputs.Get (cache (base (executor st))) clock in
  if found then
    _ ← setMapperOutput output;
    mret None
  else
    err ← wasmMapCall clock;
    match err with
    | Some err => mret (Some err)
    | None =>
        st ← getState;
        let e := executor st in
        _ ← emit (CallCacheSet (Number clock));
        '(c, err) ← liftOutcome
                      (outputs.Set_ (cache (base e)) clock cursor
                         (mapperOutput e));
        _ ← setCache c;
        match err with
        | Some err => mret (Some (CacheSetFailed (Number clock) err))
        | None => mret None
        end
    end.

(** Modelled from the spec: the pipeline's block loop is not under the
    sources; "for each block it invokes each module executor", here one
    mapper over the clocks of a block range, stopping at the first error. *)
Fixpoint runBlocks (clocks : list Clock) (cursor : string) : M (option error) :=
  match clocks with
  | [] => mret None
  | clock :: rest =>
      err ← run clock cursor;
      match err with
      | Some err => mret (Some err)
      | None => runBlocks rest cursor
      end
  end.

(** The binding loop of [wasmCall], input by input: a source input gets
    its value from [vals], or nil when that value is empty or missing, and
    the other inputs are left as they are ([boundInput]); a store input or a
    non-empty source value raises [hasInput] ([feedsInput]); an input of any
    other type than the three named ones makes the loop panic
    ([undeclaredInput]). *)
Definition boundInput (vals : gmap string bytes) (input : wasm.Input)
  : wasm.Input :=
  match wasm.Type_ input with
  | wasm.InputSource =>
      let val := default nil_bytes (vals !! wasm.Name input) in
      withStreamData input (if len val =? 0 then nil_bytes else val)
  | _ => input
  end.

Definition feedsInput (vals : gmap string bytes) (input : wasm.Input) : bool :=
  match wasm.Type_ input with
  | wasm.InputSource =>
      negb (len (default nil_bytes (vals !! wasm.Name input)) =? 0)
  | wasm.InputStore => true
  | _ => false
  end.

Definition undeclaredInput (input : wasm.Input) : bool :=
  match wasm.Type_ input with
  | wasm.OtherInputType _ => true
  | _ => false
  end.

(** [anypb.Any], the payload of [ModuleOutput_MapOutput]. *)
Record Any := { TypeUrl : string; Value : bytes }.

(** [MapperModuleExecutor.moduleOutputData]: [None] is the nil interface. *)
Definition moduleOutputData (e : MapperModuleExecutor) : option Any :=
  match mapperOutput e with
  | nil_bytes => None
  | out => Some {| TypeUrl := "type.googleapis.com/" ++ outputType e;
                   Value := out |}
  end.

End pipeline.

(** ** Package [state]: max-policy writes *)

Module state.

(** Modelled from the spec: the store ([Store], [GetAt], [set] and the
    [SetMax...] family) is not under the sources, only its tests are.  A
    store is "a mapping from string keys to byte-string values" with a delta
    journal; "getAt(ord, key) returns (value, found) from current kv"; "every
    successful mutation appends one delta ... capturing prior value (empty on
    create) and new value"; "max{...}(ord, key, candidate) - read, replace
    iff candidate strictly improves monotone direction; min/max semantics on
    missing key write the candidate"; numbers "are stored as their canonical
    decimal text form". *)
Inductive UpdatePolicy : Type :=
| UPDATE_POLICY_UNSET
| UPDATE_POLICY_SET
| UPDATE_POLICY_SET_IF_NOT_EXISTS
| UPDATE_POLICY_ADD
| UPDATE_POLICY_MIN
| UPDATE_POLICY_MAX
| UPDATE_POLICY_APPEND.

(** Modelled from the spec: a delta is "{ordinal, operation in {create,
    update, delete}, key, oldValue, newValue}". *)
Inductive Operation : Type := CREATE | UPDATE | DELETE.

Record StoreDelta := {
  Op : Operation;
  Ordinal : Z;
  Key : string;
  OldValue : list Byte.byte;
  NewValue : list Byte.byte
}.

(** Modelled from the spec: the store record of section 3 (name,
    moduleHash, moduleInitialBlock, saveInterval, updatePolicy, valueType,
    kv, deltas, lastOrdinal). *)
Record Store := {
  Name : string;
  ModuleHash : string;
  ModuleInitialBlock : Z;
  SaveInterval : Z;
  updatePolicy : UpdatePolicy;
  valueType : string;
  KV : gmap string (list Byte.byte);
  Deltas : list StoreDelta;
  lastOrdinal : Z
}.

(** Modelled from the spec: [Store.GetAt] "returns (value, found) from
    current kv". *)
Definition GetAt (s : Store) (ord : Z) (key : string)
  : list Byte.byte * bool :=
  match KV s !! key with
  | Some value => (value, true)
  | None => ([], false)
  end.

(** Modelled from the spec: the write every typed operation ends with; it
    replaces the value and appends one delta "capturing prior value (empty on
    create) and new value" under the caller's ordinal. *)
Definition set (s : Store) (ord : Z) (key : string) (value : list Byte.byte)
  : Store :=
  let delta :=
    match KV s !! key with
    | Some old => {| Op := UPDATE; Ordinal := ord; Key := key;
                     OldValue := old; NewValue := value |}
    | None => {| Op := CREATE; Ordinal := ord; Key := key;
                 OldValue := []; NewValue := value |}
    end in
  {| Name := Name s; ModuleHash := ModuleHash s;
     ModuleInitialBlock := ModuleInitialBlock s;
     SaveInterval := SaveInterval s; updatePolicy := updatePolicy s;
     valueType := valueType s;
     KV := <[key := value]> (KV s);
     Deltas := Deltas s ++ [delta];
     lastOrdinal := ord |}.

(** Modelled from the spec: a value type of the store with its "canonical
    decimal text form": how a number is written, how a stored text is read
    back, and the strict order. *)
Class ValueCodec (V : Type) := {
  format : V -> list Byte.byte;
  parse : list Byte.byte -> option V;
  greater : V -> V -> bool
}.

(** Modelled from the spec: the write shared by [SetMaxInt64],
    [SetMaxBigInt], [SetMaxFloat64] and [SetMaxBigFloat], "read, replace iff
    candidate strictly improves monotone direction; min/max semantics on
    missing key write the candidate": read the key, keep the greater of the
    stored number and the candidate, write its text (scenario S1 records a
    delta for every call).  A stored text that is not a number leaves the
    candidate as the only number there is. *)
Definition SetMax {V : Type} {codec : ValueCodec V}
    (s : Store) (ord : Z) (key : string) (value : V) : Store :=
  let '(val, found) := GetAt s ord key in
  let max :=
    if negb found then value
    else
      match parse val with
      | Some prev => if greater value prev then value else prev
      | None => value
      end in
  set s ord key (format max).

(** Modelled from the spec: the "base-10 integer" text of [int64] and
    [bigint] values, as the tests write it with [fmt.Sprintf("%d", v)] and
    [big.Int.String]. *)
Definition formatInt (z : Z) : list Byte.byte :=
  list_byte_of_string (NilZero.string_of_int (Z.to_int z)).

(** Modelled from the spec: reading a base-10 integer text back, as the
    tests do with [big.Int.SetString(text, 10)]. *)
Definition parseInt (text : list Byte.byte) : option Z :=
  Z.of_int <$> NilZero.int_of_string (string_of_list_byte text).

Definition int64_min : Z := - 2 ^ 63.
Definition int64_max : Z := 2 ^ 63 - 1.

(** Modelled from the spec: reading an [int64] back, as the tests do with
    [strconv.ParseInt(text, 10, 64)], which fails outside the [int64]
    range. *)
Definition parseInt64 (text : list Byte.byte) : option Z :=
  match parseInt text with
  | Some z => if (int64_min <=? z) && (z <=? int64_max) then Some z else None
  | None => None
  end.

Definition int64_codec : ValueCodec Z :=
  {| format := formatInt; parse := parseInt64; greater := fun a b => a >? b |}.

Definition bigint_codec : ValueCodec Z :=
  {| format := formatInt; parse := parseInt; greater := fun a b => a >? b |}.

(** Modelled from the spec: the typed max writes of the store. *)
Definition SetMaxInt64 (s : Store) (ord : Z) (key : string) (value : Z)
  : Store := @SetMax Z int64_codec s ord key value.

Definition SetMaxBigInt (s : Store) (ord : Z) (key : string) (value : Z)
  : Store := @SetMax Z bigint_codec s ord key value.

(** Modelled from the spec: the floating-point variants are the same write
    over a codec for the float type; the float formats themselves are not
    modelled. *)
Definition SetMaxFloat64 {F : Type} (codec : ValueCodec F)
    (s : Store) (ord : Z) (key : string) (value : F) : Store :=
  @SetMax F codec s ord key value.

Definition SetMaxBigFloat {F : Type} (codec : ValueCodec F)
    (s : Store) (ord : Z) (key : string) (value : F) : Store :=
  @SetMax F codec s ord key value.

(** Modelled from the spec: a store "is created empty"; the arguments are
    those [mustNewStore] of the tests passes. *)
Definition NewStore (name : string) (saveInterval moduleInitialBlock : Z)
    (moduleHash : string) (policy : UpdatePolicy) (valueType : string)
  : Store :=
  {| Name := name; ModuleHash := moduleHash;
     ModuleInitialBlock := moduleInitialBlock; SaveInterval := saveInterval;
     updatePolicy := policy; valueType := valueType;
     KV := ∅; Deltas := []; lastOrdinal := 0 |}.

(** The codec reads back what it writes, on the values of the type. *)
Definition codec_roundtrip {V : Type} (codec : ValueCodec V)
    (valid : V -> Prop) : Prop :=
  forall v : V, valid v -> parse (format v) = Some v.

End state.

(** ** Package [client] *)

Module client.

Record SubstreamsClientConfig := {
  endpoint : string;
  jwt : string;
  insecure : bool;
  plaintext : bool
}.

Definition NewSubstreamsClientConfig (endpoint jwt : string)
    (insecure plaintext : bool) : SubstreamsClientConfig :=
  {| endpoint := endpoint; jwt := jwt; insecure := insecure;
     plaintext := plaintext |}.

(** The gRPC values the function builds. *)
Inductive TransportCredentials : Type :=
| XDSCredentials
| InsecureCredentials
| TLSInsecureSkipVerify.

Inductive DialOption : Type :=
| WithTransportCredentials (creds : TransportCredentials)
| WithUnaryInterceptor
| WithStreamInterceptor.

Inductive CallOption : Type :=
| PerRPCCredentials (accessToken tokenType : string).

Inductive error : Type :=
| XDSCredentialsFailed (cause : string)
| MutuallyExclusive
| ExternalClientFailed (cause : string).

(** What the call reaches outside the package: the process environment
    ([os.Getenv]), the xDS credentials constructor (its error, if it fails)
    and the dialer [dgrpc.NewExternalClient] (an error or a connection).
    [Conn] is the connection type; the stream client and the close function
    are built from the connection. *)
Record World (Conn : Type) := {
  Getenv : string -> string;
  NewClientCredentials : option string;
  NewExternalClient : string -> list DialOption -> string + Conn
}.
Arguments Getenv {Conn} w key.
Arguments NewClientCredentials {Conn} w.
Arguments NewExternalClient {Conn} w endpoint opts.

Record Client (Conn : Type) := {
  cli : Conn;
  callOpts : list CallOption
}.
Arguments cli {Conn} c.
Arguments callOpts {Conn} c.

Definition nonEmpty (s : string) : bool := negb (String.eqb s EmptyString).

(** [NewSubstreamsClient].  A nil [config] panics.  The [else] branch
    declares its own [dialOptions], so what it assigns there does not reach
    the [dialOptions] that is passed to the dialer.  Logging is not
    modelled. *)
Definition NewSubstreamsClient {Conn : Type} (w : World Conn)
    (config : option SubstreamsClientConfig)
  : outcome (error + Client Conn) :=
  match config with
  | None => Panicked "substreams client config not set"
  | Some config =>
      let endpoint := endpoint config in
      let jwt := jwt config in
      let usePlainTextConnection := plaintext config in
      let useInsecureTLSConnection := insecure config in
      let bootStrapFilename := Getenv w "GRPC_XDS_BOOTSTRAP" in
      let dialOptions : list DialOption := [] in
      let skipAuth := negb (nonEmpty jwt) || usePlainTextConnection in
      let continue (dialOptions : list DialOption) :=
        let dialOptions := dialOptions ++ [WithUnaryInterceptor] in
        let dialOptions := dialOptions ++ [WithStreamInterceptor] in
        match NewExternalClient w endpoint dialOptions with
        | inl err => Done (inl (ExternalClientFailed err))
        | inr conn =>
            let callOpts : list CallOption := [] in
            let callOpts :=
              if negb skipAuth
              then callOpts ++ [PerRPCCredentials jwt "Bearer"]
              else callOpts in
            Done (inr {| cli := conn; callOpts := callOpts |})
        end in
      if nonEmpty bootStrapFilename then
        match NewClientCredentials w with
        | Some err => Done (inl (XDSCredentialsFailed err))
        | None =>
            continue (dialOptions ++ [WithTransportCredentials XDSCredentials])
        end
      else
        let bootStrapFilename' := Getenv w "GRPC_XDS_BOOTSTRAP" in
        let dialOptions' : list DialOption := [] in
        if nonEmpty bootStrapFilename' then
          match NewClientCredentials w with
          | Some err => Done (inl (XDSCredentialsFailed err))
          | None =>
              let dialOptions' :=
                dialOptions' ++ [WithTransportCredentials XDSCredentials] in
              continue dialOptions
          end
        else if useInsecureTLSConnection && usePlainTextConnection then
          Done (inl MutuallyExclusive)
        else
          let dialOptions' :=
            if usePlainTextConnection
            then [WithTransportCredentials InsecureCredentials]
            else if useInsecureTLSConnection
            then [WithTransportCredentials TLSInsecureSkipVerify]
            else dialOptions' in
          continue dialOptions
  end.

End client.

(** ** Sample values for the scenarios *)

Module samples.
Import pbsubstreams wasm pipeline.

Definition somePanic : PanicError :=
  {| wasm.message := "boom"; filename := "lib.rs";
     lineNumber := 10; columnNumber := 4 |}.

(** An instance whose guest records a panic and then ends as [outcome]
    says. *)
Definition panickingInstance (p : PanicError) (outcome : option wasm.error)
  : Instance :=
  {| wasm.entrypoint := fun _ st =>
       ({| returnValue := returnValue st; panicError := Some p;
           Logs := Logs st; LogsByteCount := LogsByteCount st |}, outcome);
     args := []; wasm.valueType := EmptyString; functionName := "map_transfers";
     wasm.moduleName := "map_transfers";
     slots := {| returnValue := nil_bytes; panicError := None;
                 Logs := []; LogsByteCount := 0 |} |}.

(** An engine that cannot instantiate anything. *)
Definition noEngine : wasm.Module :=
  {| NewInstance := fun _ _ => inl (Trap "no engine");
     HeapClear := fun _ => None;
     ExecutionStack := fun _ => [] |}.

(** A cache chunk over [[100, 200)] that holds the output of block 100. *)
Definition sampleCache : outputs.OutputCache :=
  {| outputs.CurrentBlockRange := block.NewRange 100 200;
     outputs.kv :=
       {[ 100 := {| outputs.Cursor := "c100";
                    outputs.Payload := slice [Byte.x01] |} ]} |}.

Definition sampleExecutor : MapperModuleExecutor :=
  {| base :=
       {| pipeline.moduleName := "map_transfers";
          wasmModule := noEngine;
          wasmInputs :=
            [ {| Type_ := InputSource; Name := "sf.ethereum.type.v1.Block";
                 StreamData := nil_bytes |} ];
          cache := sampleCache;
          isOutput := true;
          pipeline.entrypoint := "map_transfers" |};
     outputType := "proto:eth.Transfers";
     mapperOutput := nil_bytes |}.

(** The block source delivered an empty payload for this block. *)
Definition sampleState : State :=
  {| executor := sampleExecutor;
     vals := {[ "sf.ethereum.type.v1.Block"%string := slice [] ]};
     events := [] |}.

Definition clockAt (n : Z) : Clock :=
  {| Number := n; Id := EmptyString; Timestamp := 0 |}.

Definition samplePlan : gmap string orchestrator.WorkUnit :=
  {[ "m"%string :=
       {| orchestrator.modName := "m";
          orchestrator.initialStoreFile := None;
          orchestrator.partialsMissing := [block.NewRange 1000 2000];
          orchestrator.partialsPresent := [block.NewRange 0 1000] |} ]}.

(** A state of the sample executor over a given engine, inputs and
    per-block values. *)
Definition stateWith (engine : wasm.Module) (inputs : list Input)
    (vals : gmap string bytes) : State :=
  {| executor :=
       {| base :=
            {| pipeline.moduleName := "map_transfers";
               wasmModule := engine;
               wasmInputs := inputs;
               cache := sampleCache;
               isOutput := true;
               pipeline.entrypoint := "map_transfers" |};
          outputType := "proto:eth.Transfers";
          mapperOutput := nil_bytes |};
     vals := vals;
     events := [] |}.

(** A guest that records [out] as its output and ends as [result] says, and
    the engine that always instantiates it. *)
Definition guestInstance (result : option wasm.error) (out : bytes)
  : Instance :=
  {| wasm.entrypoint := fun _ st =>
       ({| returnValue := out; panicError := panicError st;
           Logs := Logs st; LogsByteCount := LogsByteCount st |}, result);
     args := []; wasm.valueType := EmptyString;
     functionName := "map_transfers";
     wasm.moduleName := "map_transfers";
     slots := {| returnValue := nil_bytes; panicError := None;
                 Logs := []; LogsByteCount := 0 |} |}.

Definition engineOf (i : Instance) : wasm.Module :=
  {| NewInstance := fun _ _ => inr i;
     HeapClear := fun _ => None;
     ExecutionStack := fun _ => [] |}.

Definition blockInput : Input :=
  {| Type_ := InputSource; Name := "sf.ethereum.type.v1.Block";
     StreamData := nil_bytes |}.

Definition blockVals : gmap string bytes :=
  {[ "sf.ethereum.type.v1.Block"%string := slice [Byte.x0a] ]}.

End samples.

(** * Properties *)

(** ** Block ranges *)

Section RangeFacts.
Import block.

Lemma uint64_modulus_eq : uint64_modulus = 18446744073709551616.
Proof. reflexivity. Qed.

Lemma wrap64_small z : is_uint64 z -> wrap64 z = z.
Proof. intros Hz. unfold wrap64. apply Z.mod_small. exact Hz. Qed.

Lemma wrap64_range z : is_uint64 (wrap64 z).
Proof.
  unfold wrap64, is_uint64. apply Z.mod_pos_bound.
  rewrite uint64_modulus_eq. lia.
Qed.

Lemma Contains_spec r n :
  Contains r n = true <-> StartBlock r <= n < ExclusiveEndBlock r.
Proof. unfold Contains. rewrite andb_true_iff, Z.leb_le, Z.ltb_lt. tauto. Qed.

(** The accumulator of the loop is only ever appended to. *)
Lemma Split_loop_acc fuel r k cs ce res :
  Split_loop fuel r k cs ce res = (res ++.) <$> Split_loop fuel r k cs ce [].
Proof.
  revert cs ce res. induction fuel as [|fuel IH]; intros cs ce res; simpl.
  - reflexivity.
  - destruct (ce >=? ExclusiveEndBlock r); simpl.
    + reflexivity.
    + rewrite IH. symmetry. rewrite IH.
      destruct (Split_loop fuel r k _ _ []) as [l|]; simpl; [|reflexivity].
      by rewrite <- app_assoc.
Qed.

Lemma chained_le a b l : chained a b l -> a <= b.
Proof.
  revert a. induction l as [|s l IH]; simpl; intros a H.
  - lia.
  - destruct H as (<- & Hs & Hl). apply IH in Hl. lia.
Qed.

Lemma chained_bounds a b l s :
  chained a b l -> s ∈ l -> a <= StartBlock s /\ ExclusiveEndBlock s <= b.
Proof.
  revert a. induction l as [|t l IH]; simpl; intros a H Hin.
  - by apply elem_of_nil in Hin.
  - destruct H as (<- & Ht & Hl).
    apply elem_of_cons in Hin as [->|Hin].
    + apply chained_le in Hl. lia.
    + destruct (IH _ Hl Hin). lia.
Qed.

Lemma chained_covers a b l n :
  chained a b l ->
  (exists s, s ∈ l /\ Contains s n = true) <-> a <= n < b.
Proof.
  revert a. induction l as [|t l IH]; simpl; intros a H.
  - split; [intros (s & Hin & _); by apply elem_of_nil in Hin | lia].
  - destruct H as (<- & Ht & Hl). specialize (IH _ Hl).
    pose proof (chained_le _ _ _ Hl) as Hle. split.
    + intros (s & Hin & Hc). apply elem_of_cons in Hin as [->|Hin].
      * apply Contains_spec in Hc. lia.
      * assert (ExclusiveEndBlock t <= n < b) by (apply IH; eauto). lia.
    + intros Hn. destruct (Z_lt_ge_dec n (ExclusiveEndBlock t)) as [Hlt|Hge].
      * exists t. split; [apply elem_of_cons; by left | apply Contains_spec; lia].
      * destruct IH as [_ IH]. destruct IH as (s & Hin & Hc); [lia|].
        exists s. split; [apply elem_of_cons; by right | done].
Qed.

Lemma chained_disjoint a b l : chained a b l -> pairwise_disjoint l.
Proof.
  revert a. induction l as [|u l IH]; simpl; intros a H.
  - intros i j s t n _ Hi. by rewrite lookup_nil in Hi.
  - destruct H as (<- & Hu & Hl). specialize (IH _ Hl).
    intros i j s t n Hij Hi Hj [Hs Ht].
    apply Contains_spec in Hs. apply Contains_spec in Ht.
    destruct i as [|i], j as [|j]; simpl in Hi, Hj.
    + done.
    + injection Hi as <-.
      apply list_elem_of_lookup_2 in Hj.
      destruct (chained_bounds _ _ _ _ Hl Hj). lia.
    + injection Hj as <-.
      apply list_elem_of_lookup_2 in Hi.
      destruct (chained_bounds _ _ _ _ Hl Hi). lia.
    + apply (IH i j s t n); [congruence|done|done|].
      split; apply Contains_spec; lia.
Qed.

(** The loop of [Split] when no addition wraps around: from a window
    [cs, ce) clipped at the end of [r] it lays chunks end to end up to the
    end of [r]. *)
Lemma Split_loop_spec r k :
  1 <= k -> ExclusiveEndBlock r + k < uint64_modulus ->
  forall fuel cs ce,
    0 <= cs -> cs < ce -> ce = Z.min (cs + k) (ExclusiveEndBlock r) ->
    (Z.to_nat (ExclusiveEndBlock r - ce) < fuel)%nat ->
    exists res,
      Split_loop fuel r k cs ce [] = Some res /\ res <> []
      /\ chained cs (ExclusiveEndBlock r) res /\ chunked k res.
Proof.
  intros Hk Hov. induction fuel as [|fuel IH]; intros cs ce Hcs Hlt Hce Hfuel.
  - lia.
  - simpl. destruct (Z.geb_spec ce (ExclusiveEndBlock r)) as [Hge|Hnge].
    + eexists. split; [reflexivity|]. split; [done|]. simpl.
      split; [lia|]. unfold Size, sub64; simpl.
      rewrite wrap64_small by (unfold is_uint64; lia). lia.
    + assert (Hck : ce = cs + k) by lia.
      assert (Hadd : add64 ce k = ce + k).
      { unfold add64. apply wrap64_small. unfold is_uint64. lia. }
      rewrite Hadd, Split_loop_acc.
      destruct (IH ce (if ce + k >? ExclusiveEndBlock r
                       then ExclusiveEndBlock r else ce + k))
        as (res & Hres & Hne & Hch & Hsz).
      * lia.
      * destruct (Z.gtb_spec (ce + k) (ExclusiveEndBlock r)); lia.
      * destruct (Z.gtb_spec (ce + k) (ExclusiveEndBlock r)); lia.
      * destruct (Z.gtb_spec (ce + k) (ExclusiveEndBlock r)); lia.
      * rewrite Hres. simpl. eexists. split; [reflexivity|].
        split; [done|]. split; [simpl; repeat split; [lia|done]|].
        destruct res as [|s res]; [done|].
        change (Size {| StartBlock := cs; ExclusiveEndBlock := ce |} = k
                /\ chunked k (s :: res)).
        split; [|done]. unfold Size, sub64; simpl.
        rewrite wrap64_small by (unfold is_uint64; lia). lia.
Qed.

(** The result does not depend on the amount of spare fuel. *)
Lemma Split_loop_fuel_irrelevant f1 f2 r k cs ce acc res1 res2 :
  Split_loop f1 r k cs ce acc = Some res1 ->
  Split_loop f2 r k cs ce acc = Some res2 -> res1 = res2.
Proof.
  revert f2 cs ce acc.
  induction f1 as [|f1 IH]; intros [|f2] cs ce acc; simpl; try discriminate.
  destruct (ce >=? ExclusiveEndBlock r); [congruence|]. apply IH.
Qed.

Lemma Size_forward r :
  0 <= StartBlock r <= ExclusiveEndBlock r ->
  ExclusiveEndBlock r < uint64_modulus ->
  Size r = ExclusiveEndBlock r - StartBlock r.
Proof.
  intros H1 H2. unfold Size, sub64. apply wrap64_small. unfold is_uint64. lia.
Qed.

(** [Split] on a forward range whose end plus the chunk size is
    representable: [Size r] iterations are enough, and the chunks are laid
    end to end over [r]. *)
Lemma Split_forward r k :
  0 <= StartBlock r <= ExclusiveEndBlock r -> 1 <= k ->
  ExclusiveEndBlock r + k < uint64_modulus ->
  exists res,
    (forall fuel, (Z.to_nat (Size r) <= fuel)%nat -> Split fuel r k = Some res)
    /\ res <> [] /\ chained (StartBlock r) (ExclusiveEndBlock r) res
    /\ chunked k res /\ (Size r <= k -> res = [r]).
Proof.
  intros Hr Hk Hov. pose proof (Size_forward r Hr ltac:(lia)) as Hsz.
  destruct (Z_le_gt_dec (Size r) k) as [Hle|Hgt].
  - exists [r]. split; [|split; [done|split; [simpl; lia|split; [exact Hle|done]]]].
    intros fuel _. unfold Split. fold (Size r).
    destruct (Z.leb_spec (Size r) k); [done|lia].
  - assert (Hadd : add64 (StartBlock r) k = StartBlock r + k).
    { unfold add64. apply wrap64_small. unfold is_uint64. lia. }
    destruct (Split_loop_spec r k Hk Hov (Z.to_nat (Size r)) (StartBlock r)
                (StartBlock r + k)) as (res & Hres & Hne & Hch & Hck);
      [lia|lia|lia|lia|].
    exists res. split; [|split; [done|split; [done|split; [done|lia]]]].
    intros fuel Hfuel. unfold Split. fold (Size r).
    destruct (Z.leb_spec (Size r) k); [lia|]. rewrite Hadd.
    destruct (Split_loop_spec r k Hk Hov fuel (StartBlock r)
                (StartBlock r + k)) as (res' & Hres' & _); [lia|lia|lia|lia|].
    rewrite Hres'. f_equal. eapply Split_loop_fuel_irrelevant; eassumption.
Qed.

(** A reversed range ([end < start]) whose start plus the chunk size is
    representable: the loop body runs once. *)
Lemma Split_reversed r k fuel :
  is_uint64 (StartBlock r) -> is_uint64 (ExclusiveEndBlock r) ->
  ExclusiveEndBlock r < StartBlock r -> 1 <= k -> k < Size r ->
  StartBlock r + k < uint64_modulus ->
  Split (S fuel) r k
  = Some [ {| StartBlock := StartBlock r;
              ExclusiveEndBlock := StartBlock r + k |} ].
Proof.
  intros Hs He Hrev Hk Hsz Hov. unfold Split. fold (Size r).
  destruct (Z.leb_spec (Size r) k); [lia|].
  assert (Hadd : add64 (StartBlock r) k = StartBlock r + k).
  { unfold add64. apply wrap64_small. unfold is_uint64 in *. lia. }
  rewrite Hadd. simpl.
  destruct (Z.geb_spec (StartBlock r + k) (ExclusiveEndBlock r)); [done|lia].
Qed.

(** With chunk size 0 the window never moves: the loop appends the empty
    range at the start forever. *)
Lemma Split_loop_zero_stuck fuel res :
  Split_loop fuel (mkRange 0 1) 0 0 0 res = None.
Proof.
  revert res. induction fuel as [|fuel IH]; intros res; [done|].
  simpl. apply IH.
Qed.

(** With [r = [0, 2^64-1)] and chunk size [2^63] the window alternates
    between [[0, 2^63)] and the wrapped [[2^63, 0)]. *)
Lemma Split_loop_wrap_cycle fuel :
  forall res,
    Split_loop fuel (mkRange 0 (2^64 - 1)) (2^63) 0 (2^63) res = None
    /\ Split_loop fuel (mkRange 0 (2^64 - 1)) (2^63) (2^63) 0 res = None.
Proof.
  induction fuel as [|fuel IH]; intros res; [done|].
  split.
  - change (Split_loop fuel (mkRange 0 (2^64 - 1)) (2^63) (2^63) 0
              (res ++ [mkRange 0 (2^63)]) = None). apply IH.
  - change (Split_loop fuel (mkRange 0 (2^64 - 1)) (2^63) 0 (2^63)
              (res ++ [mkRange (2^63) 0]) = None). apply IH.
Qed.

End RangeFacts.

(** ** Work planning *)

Section PlanningFacts.
Import block orchestrator.

Lemma minOf_min a b : minOf a b = Z.min a b.
Proof. unfold minOf. destruct (Z.ltb_spec a b); lia. Qed.

(** Without wrap-around the next boundary lies strictly after [ptr], at most
    [saveInterval] further. *)
Lemma nextBoundary_exact ptr s :
  0 < s -> 0 <= ptr -> ptr + s < uint64_modulus ->
  nextBoundary ptr s = ptr - ptr mod s + s.
Proof.
  intros Hs Hp Hov. pose proof (Z.mod_pos_bound ptr s Hs) as Hm.
  pose proof (Z.mod_le ptr s Hp Hs) as Hle.
  unfold nextBoundary, add64, sub64.
  rewrite (wrap64_small (ptr - ptr mod s)) by (unfold is_uint64; lia).
  apply wrap64_small. unfold is_uint64. lia.
Qed.

Lemma splitLoop_fuel_irrelevant f1 f2 s req snaps ptr w w1 w2 :
  splitLoop f1 s req snaps ptr w = Done w1 ->
  splitLoop f2 s req snaps ptr w = Done w2 -> w1 = w2.
Proof.
  revert f2 ptr w.
  induction f1 as [|f1 IH]; intros [|f2] ptr w; simpl;
    destruct (ptr <? req); try congruence.
  destruct (s =? 0); [discriminate|]. apply IH.
Qed.

(** The loop never touches the name or the initial store file. *)
Lemma splitLoop_preserves fuel s req snaps ptr w w' :
  splitLoop fuel s req snaps ptr w = Done w' ->
  modName w' = modName w /\ initialStoreFile w' = initialStoreFile w.
Proof.
  revert ptr w. induction fuel as [|fuel IH]; intros ptr w; simpl;
    destruct (ptr <? req); try congruence; try (intros [= <-]; done).
  destruct (s =? 0); [discriminate|]. intros H. apply IH in H.
  destruct (negb _); simpl in H; exact H.
Qed.

(** Everything the loop produces has the boundary shape and is filed by
    [ContainsPartial], whatever the arithmetic does. *)
Lemma splitLoop_shape fuel s req snaps ptr w w' :
  splitLoop fuel s req snaps ptr w = Done w' ->
  exists rs,
    Forall (fun r => ExclusiveEndBlock r
                     = minOf (nextBoundary (StartBlock r) s) req) rs
    /\ partialsMissing w'
       = partialsMissing w
         ++ List.filter (fun r => negb (ContainsPartial snaps r)) rs
    /\ partialsPresent w'
       = partialsPresent w ++ List.filter (ContainsPartial snaps) rs.
Proof.
  revert ptr w. induction fuel as [|fuel IH]; intros ptr w; simpl.
  - destruct (ptr <? req); [discriminate|]. intros [= <-].
    exists []. simpl. by rewrite !app_nil_r.
  - destruct (ptr <? req).
    + destruct (s =? 0); [discriminate|]. intros H.
      apply IH in H as (rs & Hrs & Hmiss & Hpres).
      set (newPartial := NewRange ptr (minOf (nextBoundary ptr s) req)) in *.
      exists (newPartial :: rs). split; [constructor; done|].
      simpl. destruct (ContainsPartial snaps newPartial); simpl in *.
      * rewrite Hmiss, Hpres. by rewrite <- app_assoc.
      * rewrite Hmiss, Hpres. by rewrite <- app_assoc.
    + intros [= <-]. exists []. simpl. by rewrite !app_nil_r.
Qed.

(** When no boundary computation wraps, [req - ptr] iterations are enough and
    the produced ranges are laid end to end from [ptr] to [req]. *)
Lemma splitLoop_total s req snaps :
  0 < s -> req + s <= uint64_modulus ->
  forall fuel ptr w,
    0 <= ptr <= req -> (Z.to_nat (req - ptr) <= fuel)%nat ->
    exists w' rs,
      splitLoop fuel s req snaps ptr w = Done w'
      /\ chained ptr req rs
      /\ Forall (fun r => ExclusiveEndBlock r
                          = minOf (nextBoundary (StartBlock r) s) req) rs
      /\ partialsMissing w'
         = partialsMissing w
           ++ List.filter (fun r => negb (ContainsPartial snaps r)) rs
      /\ partialsPresent w'
         = partialsPresent w ++ List.filter (ContainsPartial snaps) rs.
Proof.
  intros Hs Hov. induction fuel as [|fuel IH]; intros ptr w Hptr Hfuel.
  - assert (ptr = req) as -> by lia. simpl. rewrite Z.ltb_irrefl.
    exists w, []. simpl. by rewrite !app_nil_r.
  - simpl. destruct (Z.ltb_spec ptr req) as [Hlt|Hge].
    + destruct (Z.eqb_spec s 0) as [->|_]; [lia|].
      pose proof (Z.mod_pos_bound ptr s Hs) as Hm.
      pose proof (nextBoundary_exact ptr s Hs ltac:(lia) ltac:(lia)) as Hnb.
      set (end_ := minOf (nextBoundary ptr s) req).
      assert (Hend : ptr < end_ <= req).
      { unfold end_. rewrite minOf_min, Hnb. lia. }
      set (w1 := if negb (ContainsPartial snaps (NewRange ptr end_))
                 then _ else _).
      destruct (IH end_ w1) as (w' & rs & Hrun & Hch & Hshape & Hmiss & Hpres);
        [lia|lia|].
      exists w', (NewRange ptr end_ :: rs). split; [exact Hrun|].
      split; [simpl; repeat split; [lia|done]|].
      split; [constructor; done|]. rewrite Hmiss, Hpres. subst w1. simpl.
      destruct (ContainsPartial snaps (NewRange ptr end_)); simpl;
        by rewrite <- !app_assoc.
    + assert (ptr = req) as -> by lia.
      exists w, []. simpl. by rewrite !app_nil_r.
Qed.

(** The modelled catalog lookup returns a complete snapshot that ends at or
    before the requested block. *)
Lemma later_complete_fold blockNum cs best c :
  (forall b, best = Some b -> ExclusiveEndBlock b <= blockNum) ->
  foldl (later_complete blockNum) best cs = Some c ->
  ExclusiveEndBlock c <= blockNum.
Proof.
  revert best. induction cs as [|x cs IH]; simpl; intros best Hbest H.
  - by apply Hbest.
  - apply IH in H; [done|]. intros b. unfold later_complete.
    destruct (Z.leb_spec (ExclusiveEndBlock x) blockNum); [|by apply Hbest].
    destruct best as [b0|]; [|by intros [= <-]].
    destruct (ExclusiveEndBlock b0 <? ExclusiveEndBlock x);
      [by intros [= <-]|by apply Hbest].
Qed.

Lemma LastCompleteSnapshotBefore_le snaps blockNum c :
  LastCompleteSnapshotBefore snaps blockNum = Some c ->
  ExclusiveEndBlock c <= blockNum.
Proof. apply later_complete_fold. discriminate. Qed.

End PlanningFacts.

Section PlanningClaims.
Import block orchestrator.

(** Where back-processing starts: the end of the latest complete snapshot,
    or the module's initial block when there is none. *)
Lemma StoresSplitWork_total modName s init req snaps :
  0 < s -> 0 <= init < req -> req + s <= uint64_modulus ->
  match LastCompleteSnapshotBefore snaps req with
  | Some c => init < ExclusiveEndBlock c
  | None => True
  end ->
  exists w rs,
    (forall fuel, (Z.to_nat (req - init) <= fuel)%nat ->
                  StoresSplitWork fuel modName s init req snaps = Done w)
    /\ initialStoreFile w
       = (fun c => NewRange init (ExclusiveEndBlock c))
           <$> LastCompleteSnapshotBefore snaps req
    /\ chained
         (match LastCompleteSnapshotBefore snaps req with
          | Some c => ExclusiveEndBlock c
          | None => init
          end) req rs
    /\ Forall (fun r => ExclusiveEndBlock r
                        = minOf (nextBoundary (StartBlock r) s) req) rs
    /\ partialsMissing w
       = List.filter (fun r => negb (ContainsPartial snaps r)) rs
    /\ partialsPresent w = List.filter (ContainsPartial snaps) rs.
Proof.
  intros Hs Hinit Hov Hsnap. unfold StoresSplitWork.
  destruct (Z.leb_spec req init) as [?|_]; [lia|].
  destruct (LastCompleteSnapshotBefore snaps req) as [c|] eqn:Hc.
  - pose proof (LastCompleteSnapshotBefore_le _ _ _ Hc) as Hle.
    destruct (Z.leb_spec (ExclusiveEndBlock c) init) as [?|_]; [lia|].
    destruct (Z.eqb_spec (ExclusiveEndBlock c) req) as [Heq|Hne].
    + exists (withInitialStoreFile (newWorkUnit modName)
                (NewRange init (ExclusiveEndBlock c))), [].
      split; [intros fuel _; reflexivity|].
      simpl. repeat split; done.
    + set (w0 := withInitialStoreFile _ _).
      destruct (splitLoop_total s req snaps Hs Hov (Z.to_nat (req - init))
                  (ExclusiveEndBlock c) w0)
        as (w & rs & Hrun & Hch & Hshape & Hmiss & Hpres); [lia|lia|].
      exists w, rs. split; [|split; [|done]].
      * intros fuel Hfuel.
        destruct (splitLoop_total s req snaps Hs Hov fuel
                    (ExclusiveEndBlock c) w0) as (w' & _ & Hrun' & _);
          [lia|lia|].
        rewrite Hrun'. f_equal.
        eapply splitLoop_fuel_irrelevant; eassumption.
      * apply splitLoop_preserves in Hrun as [_ ->]. reflexivity.
  - set (w0 := newWorkUnit modName).
    destruct (splitLoop_total s req snaps Hs Hov (Z.to_nat (req - init))
                init w0)
      as (w & rs & Hrun & Hch & Hshape & Hmiss & Hpres); [lia|lia|].
    exists w, rs. split; [|split; [|done]].
    + intros fuel Hfuel.
      destruct (splitLoop_total s req snaps Hs Hov fuel init w0)
        as (w' & _ & Hrun' & _); [lia|lia|].
      rewrite Hrun'. f_equal.
      eapply splitLoop_fuel_irrelevant; eassumption.
    + apply splitLoop_preserves in Hrun as [_ ->]. reflexivity.
Qed.






(** C10. When [incomingReqStartBlock <= modInitBlock], [StoresSplitWork]
    returns a work unit that carries only the module name, whatever the
    snapshots catalog holds (and whatever the save interval and the fuel). *)
Theorem StoresSplitWork_before_init fuel modName s init req snaps :
  req <= init ->
  StoresSplitWork fuel modName s init req snaps
  = Done {| modName := modName; initialStoreFile := None;
            partialsMissing := []; partialsPresent := [] |}.
Proof.
  intros Hle. unfold StoresSplitWork.
  destruct (Z.leb_spec req init); [reflexivity | lia].
Qed.

Lemma StoresSplitWork_before_init_witness :
  StoresSplitWork 0 "m" 1000 2000 1500
    {| Completes := [NewRange 2000 3000]; Partials := [NewRange 0 1000] |}
  = Done {| modName := "m"; initialStoreFile := None;
            partialsMissing := []; partialsPresent := [] |}.
Proof.
  apply (StoresSplitWork_before_init 0 "m"%string 1000 2000 1500). lia.
Defined.

End PlanningClaims.

(** ** Progress messages *)

Section ProgressFacts.
Import block orchestrator samples.

Lemma foldl_snoc_fmap {A B} (g : A -> B) (l : list A) (acc : list B) :
  foldl (fun more rng => more ++ [g rng]) acc l = acc ++ (g <$> l).
Proof.
  revert acc. induction l as [|x l IH]; intros acc; simpl.
  - by rewrite app_nil_r.
  - rewrite IH. by rewrite <- app_assoc.
Qed.

(** What one entry of the plan contributes. *)
Lemma progressOf_eq storeName unit :
  progressOf storeName unit
  = match initialStoreFile unit with
    | None => []
    | Some f =>
        [ {| Name := storeName;
             ProcessedRanges :=
               toBlockRange f
               :: (toBlockRange <$> Merged (partialsPresent unit)) |} ]
    end.
Proof.
  unfold progressOf, initialProcessedPartials.
  destruct (initialStoreFile unit) as [f|]; [|reflexivity].
  by rewrite foldl_snoc_fmap.
Qed.

Lemma progress_foldl_bind (l : list (string * WorkUnit)) acc :
  foldl (fun out '(storeName, unit) => out ++ progressOf storeName unit) acc l
  = acc ++ (l ≫= fun '(storeName, unit) => progressOf storeName unit).
Proof.
  revert acc. induction l as [|[k u] l IH]; intros acc; csimpl.
  - by rewrite app_nil_r.
  - rewrite IH. by rewrite <- app_assoc.
Qed.

Lemma progress_names_sublist (l : list (string * WorkUnit)) :
  (Name <$> (l ≫= fun '(storeName, unit) => progressOf storeName unit))
    `sublist_of` l.*1.
Proof.
  induction l as [|[k u] l IH]; csimpl; [constructor|].
  rewrite progressOf_eq. destruct (initialStoreFile u); csimpl.
  - by apply sublist_skip.
  - by apply sublist_cons.
Qed.

(** The messages of a plan: one for each entry that has an initial store
    file, under the entry's key. *)
Lemma ProgressMessages_elem (p : gmap string WorkUnit) (m : ModuleProgress) :
  m ∈ ProgressMessages p <->
  exists unit f,
    p !! Name m = Some unit /\ initialStoreFile unit = Some f
    /\ ProcessedRanges m
       = toBlockRange f :: (toBlockRange <$> Merged (partialsPresent unit)).
Proof.
  unfold ProgressMessages. rewrite progress_foldl_bind. simpl.
  rewrite list_elem_of_bind. split.
  - intros ([k u] & Hin & Hku). apply elem_of_map_to_list in Hku.
    rewrite progressOf_eq in Hin.
    destruct (initialStoreFile u) as [f|] eqn:Hf;
      [|by apply elem_of_nil in Hin].
    apply list_elem_of_singleton in Hin as ->. simpl. eauto.
  - intros (u & f & Hp & Hf & Hranges). exists (Name m, u).
    split; [|by apply elem_of_map_to_list].
    rewrite progressOf_eq, Hf. apply list_elem_of_singleton.
    destruct m as [n rs]. simpl in *. by subst rs.
Qed.

Lemma ProgressMessages_names_NoDup (p : gmap string WorkUnit) :
  NoDup (Name <$> ProgressMessages p).
Proof.
  unfold ProgressMessages. rewrite progress_foldl_bind. simpl.
  eapply sublist_NoDup; [apply (NoDup_fst_map_to_list p)|].
  apply progress_names_sublist.
Qed.




End ProgressFacts.

(** ** Splitting a range *)

Section SplitClaims.
Import block.

(** C4 (amended). For every range [r = [start, end)] with [start <= end] and
    every chunk size [k >= 1] such that [end + k] is representable in
    [uint64], [r.Split(k)] returns (within [Size r] iterations) a non-empty
    list of sub-ranges whose pairwise intersection is empty and whose union
    is exactly [r]: the first starts at [r.StartBlock], each next one starts
    where the previous one ends, and the last ends at
    [r.ExclusiveEndBlock]. *)
Theorem Split_partitions (r : Range) (k : Z) :
  0 <= StartBlock r <= ExclusiveEndBlock r -> 1 <= k ->
  ExclusiveEndBlock r + k < uint64_modulus ->
  exists res,
    (forall fuel, (Z.to_nat (Size r) <= fuel)%nat -> Split fuel r k = Some res)
    /\ res <> []
    /\ chained (StartBlock r) (ExclusiveEndBlock r) res
    /\ covers res r
    /\ pairwise_disjoint res.
Proof.
  intros Hr Hk Hov.
  destruct (Split_forward r k Hr Hk Hov) as (res & Hrun & Hne & Hch & _).
  exists res. split; [exact Hrun|]. split; [exact Hne|].
  split; [exact Hch|]. split.
  - intros n. rewrite (chained_covers _ _ _ n Hch). symmetry.
    apply Contains_spec.
  - eapply chained_disjoint. exact Hch.
Qed.

Lemma Split_partitions_witness :
  exists res,
    (forall fuel, (Z.to_nat (Size (mkRange 100 2600)) <= fuel)%nat ->
                  Split fuel (mkRange 100 2600) 1000 = Some res)
    /\ res <> []
    /\ chained 100 2600 res
    /\ covers res (mkRange 100 2600)
    /\ pairwise_disjoint res.
Proof.
  apply (Split_partitions (mkRange 100 2600) 1000).
  - simpl. lia.
  - lia.
  - simpl. rewrite uint64_modulus_eq. lia.
Defined.

(** C4, as stated, fails at chunk size 0, where the loop of [Split] never
    ends on a non-empty range, and where [end + k] wraps around: the chunks
    of [[0, 2^63+2)] by [2^63+1] are [[0, 2^63+1)], the reversed
    [[2^63+1, 2)] and [[2, 2^63+2)], and block 5 lies in the first and in
    the third. *)
Lemma Split_partitions_counterexample :
  (~ exists fuel res, Split fuel (mkRange 0 1) 0 = Some res)
  /\ exists res,
       Split 3 (mkRange 0 (2^63 + 2)) (2^63 + 1) = Some res
       /\ ~ pairwise_disjoint res.
Proof.
  split.
  - intros (fuel & res & H). unfold Split in H. simpl in H.
    change (Split_loop fuel (mkRange 0 1) 0 0 0 [] = Some res) in H.
    by rewrite Split_loop_zero_stuck in H.
  - eexists. split; [vm_compute; reflexivity|].
    intros Hdis.
    apply (Hdis 0%nat 2%nat (mkRange 0 (2^63 + 1)) (mkRange 2 (2^63 + 2)) 5);
      [lia|reflexivity|reflexivity|].
    split; reflexivity.
Qed.

(** C9 (amended). For every range [r] and every chunk size [k >= 1] such
    that neither [r.StartBlock + k] nor [r.ExclusiveEndBlock + k] wraps
    around, [r.Split(k)] terminates (within [Size r] iterations); when
    [r.Size() <= k] the result is the single range [r] itself, and otherwise
    every returned sub-range except the last has size exactly [k] and the
    last has size at most [k]. *)
Theorem Split_terminates_chunked (r : Range) (k : Z) :
  is_uint64 (StartBlock r) -> is_uint64 (ExclusiveEndBlock r) -> 1 <= k ->
  StartBlock r + k < uint64_modulus ->
  ExclusiveEndBlock r + k < uint64_modulus ->
  exists res,
    (forall fuel, (Z.to_nat (Size r) <= fuel)%nat -> Split fuel r k = Some res)
    /\ (Size r <= k -> res = [r])
    /\ (k < Size r -> chunked k res).
Proof.
  intros Hs He Hk Hovs Hove.
  destruct (Z_le_gt_dec (StartBlock r) (ExclusiveEndBlock r)) as [Hfwd|Hrev].
  - destruct (Split_forward r k) as (res & Hrun & _ & _ & Hck & Hone);
      [unfold is_uint64 in *; lia|lia|lia|].
    exists res. split; [exact Hrun|]. split; [exact Hone | intros _; exact Hck].
  - destruct (Z_le_gt_dec (Size r) k) as [Hle|Hgt].
    + exists [r]. split; [|split; [done | lia]].
      intros fuel _. unfold Split. fold (Size r).
      destruct (Z.leb_spec (Size r) k); [done|lia].
    + exists [ {| StartBlock := StartBlock r;
                  ExclusiveEndBlock := StartBlock r + k |} ].
      split; [|split; [lia|]].
      * intros [|fuel] Hfuel; [lia|].
        apply Split_reversed; [done|done|lia|lia|lia|lia].
      * intros _. simpl. unfold Size, sub64. simpl.
        replace (StartBlock r + k - StartBlock r) with k by lia.
        rewrite wrap64_small; [lia|]. unfold is_uint64 in *. lia.
Qed.

Lemma Split_terminates_chunked_witness :
  exists res,
    (forall fuel, (Z.to_nat (Size (mkRange 100 2600)) <= fuel)%nat ->
                  Split fuel (mkRange 100 2600) 1000 = Some res)
    /\ (Size (mkRange 100 2600) <= 1000 -> res = [mkRange 100 2600])
    /\ (1000 < Size (mkRange 100 2600) -> chunked 1000 res).
Proof.
  apply (Split_terminates_chunked (mkRange 100 2600) 1000).
  - unfold is_uint64. simpl. rewrite uint64_modulus_eq. lia.
  - unfold is_uint64. simpl. rewrite uint64_modulus_eq. lia.
  - lia.
  - simpl. rewrite uint64_modulus_eq. lia.
  - simpl. rewrite uint64_modulus_eq. lia.
Defined.

(** C9, as stated, fails where the window wraps around: on
    [r = [0, 2^64-1)] with [k = 2^63] the loop of [Split] alternates between
    the windows [[0, 2^63)] and [[2^63, 0)] and never reaches the end of
    [r]. *)
Lemma Split_terminates_counterexample :
  1 <= 2^63
  /\ ~ exists fuel res, Split fuel (mkRange 0 (2^64 - 1)) (2^63) = Some res.
Proof.
  split; [lia|]. intros (fuel & res & H).
  change (Split_loop fuel (mkRange 0 (2^64 - 1)) (2^63) 0 (2^63) []
          = Some res) in H.
  destruct (Split_loop_wrap_cycle fuel []) as [H0 _]. by rewrite H0 in H.
Qed.

End SplitClaims.

(** ** Executing an instance *)

Section ExecuteClaims.
Import wasm samples.

Lemma isCleanExit_exit code : isCleanExit (ExitError code) = true <-> code = 0.
Proof. simpl. apply Z.eqb_eq. Qed.

(** What [Execute] returns, by the engine's answer. *)
Lemma Execute_eq (i : Instance) st err :
  entrypoint i (args i) (slots i) = (st, err) ->
  Execute i
  = (withSlots i st,
     match err with
     | None => None
     | Some e =>
         if isCleanExit e then None
         else Some match panicError st with
                   | Some p => Panic p
                   | None => Errorf "executing entrypoint %q: %w"
                               (functionName i) e
                   end
     end).
Proof.
  intros Hcall. unfold Execute. rewrite Hcall.
  destruct err as [e|]; [|reflexivity].
  destruct (isCleanExit e); [reflexivity|]. simpl.
  destruct (panicError st); reflexivity.
Qed.

(** C5 (amended). [Execute] returns success ([nil]) when the guest entry
    point returns normally or exits with code 0, whether or not the panic
    slot is set; it returns an error for every nonzero exit code and every
    trap, and then, when the instance's panic slot is set at return time, the
    returned error is the recorded panic error. *)
Theorem Execute_contract (i : Instance) (st : Slots) (err : option error) :
  entrypoint i (args i) (slots i) = (st, err) ->
  (err = None \/ err = Some (ExitError 0) ->
   Execute i = (withSlots i st, None))
  /\ (forall e,
        err = Some e ->
        (exists code, e = ExitError code /\ code <> 0)
        \/ (exists reason, e = Trap reason) ->
        exists failure,
          Execute i = (withSlots i st, Some failure)
          /\ (forall p, panicError st = Some p -> failure = Panic p)
          /\ (panicError st = None
              -> failure = Errorf "executing entrypoint %q: %w"
                             (functionName i) e)).
Proof.
  intros Hcall. rewrite (Execute_eq i st err Hcall). split.
  - intros [->| ->]; reflexivity.
  - intros e -> He.
    assert (Hdirty : isCleanExit e = false).
    { destruct He as [(code & -> & Hcode)|(reason & ->)]; [|reflexivity].
      simpl. by apply Z.eqb_neq. }
    rewrite Hdirty. eexists. split; [reflexivity|].
    split; [intros p -> | intros ->]; reflexivity.
Qed.

Lemma Execute_contract_witness :
  exists failure,
    Execute (panickingInstance somePanic (Some (ExitError 1)))
    = (withSlots (panickingInstance somePanic (Some (ExitError 1)))
         {| returnValue := nil_bytes; panicError := Some somePanic;
            Logs := []; LogsByteCount := 0 |},
       Some failure)
    /\ (forall p, Some somePanic = Some p -> failure = Panic p)
    /\ (Some somePanic = None
        -> failure = Errorf "executing entrypoint %q: %w" "map_transfers"
                       (ExitError 1)).
Proof.
  apply (proj2 (Execute_contract
                  (panickingInstance somePanic (Some (ExitError 1)))
                  {| returnValue := nil_bytes; panicError := Some somePanic;
                     Logs := []; LogsByteCount := 0 |}
                  (Some (ExitError 1)) eq_refl) (ExitError 1) eq_refl).
  left. exists 1. split; [reflexivity | lia].
Defined.

(** C5, as stated, fails: with the panic slot set at return time, [Execute]
    still returns success when the guest returns normally, and when it exits
    with code 0. *)
Lemma Execute_counterexample :
  panicError (slots (Execute (panickingInstance somePanic None)).1)
  = Some somePanic
  /\ (Execute (panickingInstance somePanic None)).2 = None
  /\ panicError
       (slots (Execute (panickingInstance somePanic (Some (ExitError 0)))).1)
     = Some somePanic
  /\ (Execute (panickingInstance somePanic (Some (ExitError 0)))).2 = None.
Proof. repeat split. Qed.

End ExecuteClaims.

(** ** The mapper executor *)

Section ExecutorClaims.
Import pbsubstreams pipeline samples.

(** With no store input and only empty source inputs, binding the inputs
    leaves [hasInput] false. *)
Lemma bindInputs_quiet (vals : gmap string bytes) (inputs : list wasm.Input) :
  (forall input, input ∈ inputs -> wasm.Type_ input = wasm.InputSource ->
                 len (default nil_bytes (vals !! wasm.Name input)) = 0) ->
  (forall input, input ∈ inputs -> wasm.Type_ input <> wasm.InputStore) ->
  (forall input n, input ∈ inputs -> wasm.Type_ input <> wasm.OtherInputType n) ->
  exists inputs', bindInputs vals inputs false = Done (inputs', false).
Proof.
  induction inputs as [|input rest IH]; intros Hsrc Hstore Hother; simpl.
  - by exists [].
  - destruct IH as (rest' & Hrest).
    { intros i Hi. apply Hsrc. apply elem_of_cons. by right. }
    { intros i Hi. apply Hstore. apply elem_of_cons. by right. }
    { intros i n Hi. apply Hother. apply elem_of_cons. by right. }
    assert (Hin : input ∈ input :: rest) by (apply elem_of_cons; by left).
    destruct (wasm.Type_ input) as [| | |n] eqn:Hty.
    + rewrite (Hsrc input Hin Hty). simpl. rewrite Hrest. eauto.
    + by destruct (Hstore input Hin).
    + rewrite Hrest. eauto.
    + by destruct (Hother input n Hin).
Qed.

(** C6. On a cache miss the mapper executor calls [wasmMapCall], which calls
    [wasmCall].  If every source-type input's value in the per-block values
    map is empty and the module has no store-type input (its inputs being of
    the declared kinds), then no WASM instance is created or executed
    ([wasmCall] returns no instance and no error, and logs no engine call)
    and the executor records the nil output both as the mapper output and in
    the values map under the module's name. *)
Theorem wasmMapCall_skips_empty (clock : Clock) (st : State) :
  (forall input, input ∈ wasmInputs (base (executor st)) ->
     wasm.Type_ input = wasm.InputSource ->
     len (default nil_bytes (vals st !! wasm.Name input)) = 0) ->
  (forall input, input ∈ wasmInputs (base (executor st)) ->
     wasm.Type_ input <> wasm.InputStore) ->
  (forall input n, input ∈ wasmInputs (base (executor st)) ->
     wasm.Type_ input <> wasm.OtherInputType n) ->
  (exists st1,
     wasmCall clock st = Done ((None, None), st1)
     /\ events st1 = events st)
  /\ (exists st',
       wasmMapCall clock st = Done (None, st')
       /\ events st' = events st
       /\ mapperOutput (executor st') = nil_bytes
       /\ vals st' = <[moduleName (base (executor st)) := nil_bytes]> (vals st)
       /\ vals st' !! moduleName (base (executor st)) = Some nil_bytes)
  /\ (outputs.kv (cache (base (executor st))) !! Number clock = None ->
      block.Contains (outputs.CurrentBlockRange (cache (base (executor st))))
        (Number clock) = true ->
      forall cursor, exists st',
        run clock cursor st = Done (None, st')
        /\ events st' = events st ++ [CallCacheSet (Number clock)]
        /\ mapperOutput (executor st') = nil_bytes
        /\ vals st' !! moduleName (base (executor st)) = Some nil_bytes).
Proof.
  intros Hsrc Hstore Hother.
  destruct (bindInputs_quiet _ _ Hsrc Hstore Hother) as (inputs' & Hbind).
  assert (Hcall : wasmCall clock st
                  = Done ((None, None),
                          {| executor :=
                               {| base :=
                                    {| moduleName := moduleName (base (executor st));
                                       wasmModule := wasmModule (base (executor st));
                                       wasmInputs := inputs';
                                       cache := cache (base (executor st));
                                       isOutput := isOutput (base (executor st));
                                       entrypoint := entrypoint (base (executor st)) |};
                                  outputType := outputType (executor st);
                                  mapperOutput := mapperOutput (executor st) |};
                             vals := vals st; events := events st |})).
  { unfold wasmCall, mbind, M_bind, getState, liftOutcome. rewrite Hbind.
    reflexivity. }
  assert (Hmap : wasmMapCall clock st
                 = Done (None,
                         {| executor :=
                              {| base :=
                                   {| moduleName := moduleName (base (executor st));
                                      wasmModule := wasmModule (base (executor st));
                                      wasmInputs := inputs';
                                      cache := cache (base (executor st));
                                      isOutput := isOutput (base (executor st));
                                      entrypoint := entrypoint (base (executor st)) |};
                                 outputType := outputType (executor st);
                                 mapperOutput := nil_bytes |};
                            vals := <[moduleName (base (executor st)) := nil_bytes]>
                                      (vals st);
                            events := events st |})).
  { unfold wasmMapCall, mbind, M_bind. rewrite Hcall. reflexivity. }
  split; [eexists; split; [exact Hcall | reflexivity]|].
  split.
  - eexists. split; [exact Hmap|].
    simpl. repeat split. apply lookup_insert_eq.
  - intros Hmiss Hrange cursor. eexists. split.
    + unfold run, mbind, M_bind, getState, outputs.Get. rewrite Hmiss.
      simpl. rewrite Hmap. simpl. unfold liftOutcome, outputs.Set_. simpl.
      rewrite Hrange. reflexivity.
    + simpl. repeat split. apply lookup_insert_eq.
Qed.

(** C7. When the output of a block is present in the output cache, [run]
    stores the cached bytes as the mapper output and returns success; the
    log of outgoing calls, the cache and the values map are unchanged, so no
    WASM instance is created or executed and nothing is written back.
    Therefore running over a block range whose every block is cached ends in
    success with zero WASM invocations. *)
Theorem run_cache_hit (clock : Clock) (cursor : string) (st : State) :
  (forall item,
     outputs.kv (cache (base (executor st))) !! Number clock = Some item ->
     run clock cursor st
     = Done (None,
             {| executor := {| base := base (executor st);
                               outputType := outputType (executor st);
                               mapperOutput := outputs.Payload item |};
                vals := vals st; events := events st |}))
  /\ (forall clocks,
        Forall (fun c => is_Some (outputs.kv (cache (base (executor st)))
                                    !! Number c)) clocks ->
        exists st',
          runBlocks clocks cursor st = Done (None, st')
          /\ events st' = events st
          /\ base (executor st') = base (executor st)
          /\ vals st' = vals st).
Proof.
  assert (Hhit : forall (st0 : State) c item,
            outputs.kv (cache (base (executor st0))) !! Number c = Some item ->
            run c cursor st0
            = Done (None,
                    {| executor := {| base := base (executor st0);
                                      outputType := outputType (executor st0);
                                      mapperOutput := outputs.Payload item |};
                       vals := vals st0; events := events st0 |})).
  { intros st0 c item Hitem.
    unfold run, mbind, M_bind, getState, outputs.Get. rewrite Hitem.
    reflexivity. }
  split; [apply Hhit|].
  intros clocks. revert st.
  induction clocks as [|c clocks IH]; intros st Hall.
  - exists st. by repeat split.
  - apply Forall_cons in Hall as [[item Hitem] Hrest].
    simpl. unfold mbind, M_bind. rewrite (Hhit st c item Hitem).
    destruct (IH {| executor := {| base := base (executor st);
                                   outputType := outputType (executor st);
                                   mapperOutput := outputs.Payload item |};
                    vals := vals st; events := events st |})
      as (st' & Hrun & Hev & Hbase & Hvals); [exact Hrest|].
    exists st'. by repeat split.
Qed.

Lemma wasmMapCall_skips_empty_witness :
  exists st',
    wasmMapCall (clockAt 101) sampleState = Done (None, st')
    /\ events st' = []
    /\ mapperOutput (executor st') = nil_bytes
    /\ vals st' !! "map_transfers"%string = Some nil_bytes.
Proof.
  destruct (wasmMapCall_skips_empty (clockAt 101) sampleState)
    as (_ & (st' & Hrun & Hev & Hout & _ & Hval) & _).
  - intros input Hin _. apply list_elem_of_singleton in Hin as ->.
    reflexivity.
  - intros input Hin. apply list_elem_of_singleton in Hin as ->.
    discriminate.
  - intros input n Hin. apply list_elem_of_singleton in Hin as ->.
    discriminate.
  - exists st'. repeat split; assumption.
Defined.

Lemma run_cache_hit_witness :
  run (clockAt 100) "c100" sampleState
  = Done (None,
          {| executor := {| base := base sampleExecutor;
                            outputType := outputType sampleExecutor;
                            mapperOutput := slice [Byte.x01] |};
             vals := vals sampleState; events := [] |}).
Proof.
  apply (proj1 (run_cache_hit (clockAt 100) "c100" sampleState)
           {| outputs.Cursor := "c100";
              outputs.Payload := slice [Byte.x01] |}).
  vm_compute. reflexivity.
Defined.

End ExecutorClaims.

(** ** Max-policy writes *)

Section MaxPolicyClaims.
Import state.

Lemma parseInt_formatInt z : parseInt (formatInt z) = Some z.
Proof.
  unfold parseInt, formatInt. rewrite string_of_list_byte_of_string.
  rewrite NilZero.isi.
  - simpl. by rewrite DecimalZ.of_to.
  - destruct z; simpl; [discriminate|intros [= H]|discriminate].
    by apply DecimalPos.Unsigned.to_uint_nonnil in H.
  - destruct z; simpl; [discriminate|discriminate|intros [= H]].
    by apply DecimalPos.Unsigned.to_uint_nonnil in H.
Qed.

Lemma int64_codec_roundtrip :
  codec_roundtrip int64_codec (fun z => int64_min <= z <= int64_max).
Proof.
  intros z Hz. simpl. unfold parseInt64. rewrite parseInt_formatInt.
  destruct (Z.leb_spec int64_min z); [|lia].
  destruct (Z.leb_spec z int64_max); [done|lia].
Qed.

Lemma bigint_codec_roundtrip : codec_roundtrip bigint_codec (fun _ => True).
Proof. intros z _. apply parseInt_formatInt. Qed.

Section Generic.
Context {V : Type} (codec : ValueCodec V) (valid : V -> Prop).
Hypothesis roundtrip : codec_roundtrip codec valid.

Lemma SetMax_absent s ord k (cand : V) :
  KV s !! k = None ->
  KV (SetMax s ord k cand) !! k = Some (format cand).
Proof.
  intros Hk. unfold SetMax, GetAt. rewrite Hk. simpl. apply lookup_insert_eq.
Qed.

Lemma SetMax_present s ord k (cand prev : V) :
  valid prev -> KV s !! k = Some (format prev) ->
  KV (SetMax s ord k cand) !! k
  = Some (if greater cand prev then format cand else format prev).
Proof.
  intros Hv Hk. unfold SetMax, GetAt. rewrite Hk. simpl.
  rewrite (roundtrip prev Hv). rewrite lookup_insert_eq.
  by destruct (greater cand prev).
Qed.

Lemma SetMax_other s ord k k' (cand : V) :
  k' <> k -> KV (SetMax s ord k cand) !! k' = KV s !! k'.
Proof.
  intros Hne. unfold SetMax. destruct (GetAt s ord k) as [val found].
  simpl. by rewrite lookup_insert_ne.
Qed.

End Generic.

(** The rows of [TestStoreSetMaxInt64] and [TestStoreSetMaxBigInt]: found
    less, found greater, not found. *)
Lemma SetMax_test_rows :
  let fresh := NewStore "b" 10000 0 "modulehash.1" UPDATE_POLICY_UNSET EmptyString in
  let holding (v : Z) := set fresh 0 "key" (formatInt v) in
  GetAt (SetMaxInt64 (holding 3) 0 "key" 4) 0 "key" = (formatInt 4, true)
  /\ GetAt (SetMaxInt64 (holding 5) 0 "key" 4) 0 "key" = (formatInt 5, true)
  /\ GetAt (SetMaxInt64 fresh 0 "key" 4) 0 "key" = (formatInt 4, true)
  /\ GetAt (SetMaxBigInt (holding 3) 0 "key" 4) 0 "key" = (formatInt 4, true)
  /\ GetAt (SetMaxBigInt (holding 5) 0 "key" 4) 0 "key" = (formatInt 5, true)
  /\ GetAt (SetMaxBigInt fresh 0 "key" 4) 0 "key" = (formatInt 4, true).
Proof. repeat split; vm_compute; reflexivity. Qed.



End MaxPolicyClaims.

(** * Further properties of the code *)

(** ** Ranges: neighbours, splitting, sorting *)

Section RangeMore.
Import block.

(** [r.Next(k)] starts where [r] ends and [r.Previous(k)] ends where [r]
    starts; both have size [k], also when the new bound wraps around. *)
Theorem Next_Previous_size (r : Range) (k : Z) :
  is_uint64 k ->
  StartBlock (Next r k) = ExclusiveEndBlock r
  /\ Size (Next r k) = k
  /\ ExclusiveEndBlock (Previous r k) = StartBlock r
  /\ Size (Previous r k) = k.
Proof.
  intros Hk. unfold Next, Previous, Size, add64, sub64, wrap64. simpl.
  repeat split.
  - rewrite Zminus_mod_idemp_l.
    replace (ExclusiveEndBlock r + k - ExclusiveEndBlock r) with k by lia.
    by apply Z.mod_small.
  - rewrite Zminus_mod_idemp_r.
    replace (StartBlock r - (StartBlock r - k)) with k by lia.
    by apply Z.mod_small.
Qed.

Lemma Next_Previous_size_witness :
  StartBlock (Next (mkRange 10 (2^64 - 5)) 100) = 2^64 - 5
  /\ Size (Next (mkRange 10 (2^64 - 5)) 100) = 100
  /\ ExclusiveEndBlock (Previous (mkRange 10 (2^64 - 5)) 100) = 10
  /\ Size (Previous (mkRange 10 (2^64 - 5)) 100) = 100.
Proof.
  apply (Next_Previous_size (mkRange 10 (2^64 - 5)) 100).
  unfold is_uint64. rewrite uint64_modulus_eq. lia.
Defined.

(** Stepping forward by any size and back by the size of [r] gives [r]
    again, and so does stepping back and then forward, for every range with
    [uint64] bounds (reversed ranges and wrapped steps included). *)
Theorem Next_Previous_roundtrip (r : Range) (k : Z) :
  is_uint64 (StartBlock r) -> is_uint64 (ExclusiveEndBlock r) ->
  Previous (Next r k) (Size r) = r /\ Next (Previous r k) (Size r) = r.
Proof.
  intros Hs He. destruct r as [s e]. simpl in *.
  unfold Next, Previous, Size, add64, sub64, wrap64. simpl. split; f_equal.
  - rewrite Zminus_mod_idemp_r. replace (e - (e - s)) with s by lia.
    by apply Z.mod_small.
  - rewrite Zplus_mod_idemp_r. replace (s + (e - s)) with e by lia.
    by apply Z.mod_small.
Qed.

Lemma Next_Previous_roundtrip_witness :
  Previous (Next (mkRange 3000 1000) 7) (Size (mkRange 3000 1000))
  = mkRange 3000 1000
  /\ Next (Previous (mkRange 3000 1000) 7) (Size (mkRange 3000 1000))
     = mkRange 3000 1000.
Proof.
  apply (Next_Previous_roundtrip (mkRange 3000 1000) 7);
    unfold is_uint64; simpl; rewrite uint64_modulus_eq; lia.
Defined.

(** What the loop of [Split] builds, whatever the arithmetic does: it starts
    with the window it was entered with, every chunk starts where the
    previous one ends, and the last chunk ends at or after the end of [r]. *)
Lemma Split_loop_structure fuel r k :
  forall cs ce res,
    Split_loop fuel r k cs ce [] = Some res ->
    (exists rest, res = mkRange cs ce :: rest)
    /\ (forall i a b, res !! i = Some a -> res !! S i = Some b ->
                      StartBlock b = ExclusiveEndBlock a)
    /\ (forall z, last res = Some z ->
                  ExclusiveEndBlock r <= ExclusiveEndBlock z).
Proof.
  induction fuel as [|fuel IH]; intros cs ce res; simpl; [discriminate|].
  destruct (Z.geb_spec ce (ExclusiveEndBlock r)) as [Hge|Hlt].
  - intros [= <-]. split; [by exists []|]. split.
    + intros [|i] a b Ha Hb; simpl in *; discriminate.
    + intros z [= <-]. simpl. lia.
  - rewrite Split_loop_acc.
    destruct (Split_loop fuel r k ce _ []) as [res'|] eqn:Hrun;
      [|discriminate].
    intros [= <-]. apply IH in Hrun as ([rest ->] & Hstep & Hlast).
    split; [by eexists|]. split.
    + intros [|i] a b Ha Hb.
      * simpl in Ha, Hb. injection Ha as <-. injection Hb as <-. reflexivity.
      * apply (Hstep i a b); assumption.
    + intros z Hz. apply Hlast. exact Hz.
Qed.

(** Whenever [r.Split(k)] returns, for any range and chunk size, the result
    is not empty, its first chunk starts at [r.StartBlock], every chunk
    starts where the previous one ends, and its last chunk ends at or after
    [r.ExclusiveEndBlock]. *)
Theorem Split_structure fuel (r : Range) (k : Z) res :
  Split fuel r k = Some res ->
  (exists first rest, res = first :: rest /\ StartBlock first = StartBlock r)
  /\ (forall i a b, res !! i = Some a -> res !! S i = Some b ->
                    StartBlock b = ExclusiveEndBlock a)
  /\ (forall z, last res = Some z ->
                ExclusiveEndBlock r <= ExclusiveEndBlock z).
Proof.
  unfold Split. destruct (_ <=? k).
  - intros [= <-]. split; [by exists r, []|]. split.
    + intros [|i] a b Ha Hb; simpl in *; discriminate.
    + intros z [= <-]. lia.
  - intros H. apply Split_loop_structure in H as ([rest ->] & Hstep & Hlast).
    split; [by eexists _, _|]. split; assumption.
Qed.

Lemma Split_structure_witness :
  (exists first rest,
     [mkRange 0 (2^63 + 1); mkRange (2^63 + 1) 2; mkRange 2 (2^63 + 2)]
     = first :: rest /\ StartBlock first = 0)
  /\ (forall i a b,
        [mkRange 0 (2^63 + 1); mkRange (2^63 + 1) 2; mkRange 2 (2^63 + 2)]
          !! i = Some a ->
        [mkRange 0 (2^63 + 1); mkRange (2^63 + 1) 2; mkRange 2 (2^63 + 2)]
          !! S i = Some b ->
        StartBlock b = ExclusiveEndBlock a)
  /\ (forall z,
        last [mkRange 0 (2^63 + 1); mkRange (2^63 + 1) 2;
              mkRange 2 (2^63 + 2)] = Some z ->
        2^63 + 2 <= ExclusiveEndBlock z).
Proof.
  apply (Split_structure 3 (mkRange 0 (2^63 + 2)) (2^63 + 1)).
  vm_compute. reflexivity.
Defined.

Lemma Split_loop_stuck fuel r cs :
  forall res,
    is_uint64 cs -> cs < ExclusiveEndBlock r ->
    Split_loop fuel r 0 cs cs res = None.
Proof.
  induction fuel as [|fuel IH]; intros res Hcs Hlt; simpl; [done|].
  destruct (Z.geb_spec cs (ExclusiveEndBlock r)); [lia|].
  assert (Hadd : add64 cs 0 = cs).
  { unfold add64. rewrite Z.add_0_r. by apply wrap64_small. }
  rewrite Hadd. destruct (Z.gtb_spec cs (ExclusiveEndBlock r)); [lia|].
  by apply IH.
Qed.

(** Chunk size 0: an empty range is returned as it is, and on every
    non-empty forward range the loop of [Split] never ends. *)
Theorem Split_zero_chunk (r : Range) :
  is_uint64 (StartBlock r) -> is_uint64 (ExclusiveEndBlock r) ->
  (StartBlock r = ExclusiveEndBlock r ->
   forall fuel, Split fuel r 0 = Some [r])
  /\ (StartBlock r < ExclusiveEndBlock r ->
      forall fuel, Split fuel r 0 = None).
Proof.
  intros Hs He. unfold Split. split.
  - intros Heq fuel. rewrite Heq. unfold sub64. rewrite Z.sub_diag.
    reflexivity.
  - intros Hlt fuel.
    assert (Hsz : sub64 (ExclusiveEndBlock r) (StartBlock r)
                  = ExclusiveEndBlock r - StartBlock r).
    { unfold sub64. apply wrap64_small. unfold is_uint64 in *. lia. }
    rewrite Hsz. destruct (Z.leb_spec (ExclusiveEndBlock r - StartBlock r) 0);
      [lia|].
    assert (Hadd : add64 (StartBlock r) 0 = StartBlock r).
    { unfold add64. rewrite Z.add_0_r. by apply wrap64_small. }
    rewrite Hadd. by apply Split_loop_stuck.
Qed.

Lemma Split_zero_chunk_witness :
  (forall fuel, Split fuel (mkRange 7 7) 0 = Some [mkRange 7 7])
  /\ (forall fuel, Split fuel (mkRange 100 200) 0 = None).
Proof.
  assert (Hu : forall z, 0 <= z < 1000 -> is_uint64 z).
  { intros z Hz. unfold is_uint64. rewrite uint64_modulus_eq. lia. }
  split.
  - apply (proj1 (Split_zero_chunk (mkRange 7 7)
                    (Hu 7 ltac:(lia)) (Hu 7 ltac:(lia)))).
    reflexivity.
  - apply (proj2 (Split_zero_chunk (mkRange 100 200)
                    (Hu 100 ltac:(lia)) (Hu 200 ltac:(lia)))).
    simpl. lia.
Defined.

(** The number of iterations of the loop from a clipped window. *)
Lemma Split_loop_length r k :
  1 <= k -> ExclusiveEndBlock r + k < uint64_modulus ->
  forall fuel cs ce res,
    0 <= cs -> cs < ce -> ce = Z.min (cs + k) (ExclusiveEndBlock r) ->
    Split_loop fuel r k cs ce [] = Some res ->
    Z.of_nat (length res) = (ExclusiveEndBlock r - cs + k - 1) / k.
Proof.
  intros Hk Hov. induction fuel as [|fuel IH]; intros cs ce res Hcs Hlt Hce;
    simpl; [discriminate|].
  destruct (Z.geb_spec ce (ExclusiveEndBlock r)) as [Hge|Hnge].
  - intros [= <-]. cbn [length]. change (Z.of_nat 1) with 1.
    apply (Z.div_unique _ k 1 (ExclusiveEndBlock r - cs - 1)); lia.
  - assert (Hck : ce = cs + k) by lia.
    assert (Hadd : add64 ce k = ce + k).
    { unfold add64. apply wrap64_small. unfold is_uint64. lia. }
    rewrite Hadd, Split_loop_acc.
    destruct (Split_loop fuel r k ce _ []) as [res'|] eqn:Hrun;
      [|discriminate].
    intros [= <-]. apply IH in Hrun.
    + simpl length. rewrite Nat2Z.inj_succ, Hrun.
      replace (ExclusiveEndBlock r - cs + k - 1)
        with (ExclusiveEndBlock r - ce + k - 1 + 1 * k) by lia.
      rewrite Z.div_add by lia. lia.
    + lia.
    + destruct (Z.gtb_spec (ce + k) (ExclusiveEndBlock r)); lia.
    + destruct (Z.gtb_spec (ce + k) (ExclusiveEndBlock r)); lia.
Qed.

(** On a non-empty forward range, with [k >= 1] and [end + k]
    representable, [Split] returns [ceil(size / k)] chunks. *)
Theorem Split_length fuel (r : Range) (k : Z) res :
  0 <= StartBlock r < ExclusiveEndBlock r -> 1 <= k ->
  ExclusiveEndBlock r + k < uint64_modulus ->
  Split fuel r k = Some res ->
  Z.of_nat (length res) = (Size r + k - 1) / k.
Proof.
  intros Hr Hk Hov. rewrite (Size_forward r) by lia.
  unfold Split. fold (Size r). rewrite (Size_forward r) by lia.
  destruct (Z.leb_spec (ExclusiveEndBlock r - StartBlock r) k) as [Hle|Hgt].
  - intros [= <-]. cbn [length]. change (Z.of_nat 1) with 1.
    apply (Z.div_unique _ k 1 (ExclusiveEndBlock r - StartBlock r - 1)); lia.
  - assert (Hadd : add64 (StartBlock r) k = StartBlock r + k).
    { unfold add64. apply wrap64_small. unfold is_uint64. lia. }
    rewrite Hadd. intros H.
    apply (Split_loop_length r k Hk Hov) in H; [exact H|lia|lia|lia].
Qed.

Lemma Split_length_witness :
  Z.of_nat (length [mkRange 100 1100; mkRange 1100 2100; mkRange 2100 2600])
  = (Size (mkRange 100 2600) + 1000 - 1) / 1000.
Proof.
  apply (Split_length 3 (mkRange 100 2600) 1000).
  - simpl. lia.
  - lia.
  - simpl. rewrite uint64_modulus_eq. lia.
  - vm_compute. reflexivity.
Defined.

Lemma index_Some (r : Ranges) i a :
  index r i = Some a <-> 0 <= i /\ r !! Z.to_nat i = Some a.
Proof.
  unfold index. destruct (Z.ltb_spec i 0); split.
  - discriminate.
  - intros [? _]. lia.
  - intros H'. split; [lia | exact H'].
  - intros [_ H']. exact H'.
Qed.

Lemma Swap_exchange_aux (r : Ranges) (i j : Z) r' :
  Swap r i j = Done r' ->
  length r' = length r
  /\ index r' i = index r j /\ index r' j = index r i
  /\ (forall k, k <> i -> k <> j -> index r' k = index r k)
  /\ Swap r' i j = Done r.
Proof.
  unfold Swap.
  destruct (index r i) as [a|] eqn:Hi; [|discriminate].
  destruct (index r j) as [b|] eqn:Hj; [|discriminate].
  intros [= <-].
  apply index_Some in Hi as [Hi0 Hi]. apply index_Some in Hj as [Hj0 Hj].
  pose proof (lookup_lt_Some _ _ _ Hi) as Hil.
  pose proof (lookup_lt_Some _ _ _ Hj) as Hjl.
  assert (Hri : index (<[Z.to_nat j:=a]> (<[Z.to_nat i:=b]> r)) i = Some b).
  { apply index_Some. split; [done|]. unfold Ranges in *.
    destruct (decide (Z.to_nat j = Z.to_nat i)) as [Heq|Hne].
    - rewrite Heq, list_lookup_insert_eq by (rewrite length_insert; lia).
      congruence.
    - rewrite list_lookup_insert_ne by done.
      by rewrite list_lookup_insert_eq. }
  assert (Hrj : index (<[Z.to_nat j:=a]> (<[Z.to_nat i:=b]> r)) j = Some a).
  { apply index_Some. split; [done|]. unfold Ranges in *.
    by rewrite list_lookup_insert_eq by (rewrite length_insert; lia). }
  unfold Ranges in *.
  split; [by rewrite !length_insert|].
  split; [exact Hri|]. split; [exact Hrj|].
  split.
  - intros k Hki Hkj. unfold index, Ranges.
    destruct (Z.ltb_spec k 0); [done|].
    rewrite !list_lookup_insert_ne by lia. done.
  - rewrite Hri, Hrj. f_equal. apply list_eq. intros n.
    destruct (decide (n = Z.to_nat j)) as [->|Hnj].
    + rewrite list_lookup_insert_eq by (rewrite !length_insert; lia). done.
    + rewrite list_lookup_insert_ne by done.
      destruct (decide (n = Z.to_nat i)) as [->|Hni].
      * rewrite list_lookup_insert_eq by (rewrite !length_insert; lia).
        done.
      * by rewrite !list_lookup_insert_ne by done.
Qed.

(** [Swap] exchanges the two elements in place: the length and every other
    position are unchanged, swapping again restores the list, and it panics
    exactly when an index is outside [0, len). *)
Theorem Swap_exchange (r : Ranges) (i j : Z) :
  (forall r',
     Swap r i j = Done r' ->
     length r' = length r
     /\ index r' i = index r j /\ index r' j = index r i
     /\ (forall k, k <> i -> k <> j -> index r' k = index r k)
     /\ Swap r' i j = Done r)
  /\ ((exists r', Swap r i j = Done r') <->
      (0 <= i < Z.of_nat (length r) /\ 0 <= j < Z.of_nat (length r))).
Proof.
  split; [apply Swap_exchange_aux|].
  unfold Swap, index, Ranges in *. split.
  - intros [r' H].
    destruct (Z.ltb_spec i 0); [discriminate|].
    destruct (r !! Z.to_nat i) as [a|] eqn:Hi; [|discriminate].
    destruct (Z.ltb_spec j 0); [discriminate|].
    destruct (r !! Z.to_nat j) as [b|] eqn:Hj; [|discriminate].
    apply lookup_lt_Some in Hi. apply lookup_lt_Some in Hj. lia.
  - intros [Hi Hj].
    destruct (Z.ltb_spec i 0); [lia|]. destruct (Z.ltb_spec j 0); [lia|].
    destruct (lookup_lt_is_Some_2 r (Z.to_nat i)) as [a ->]; [lia|].
    destruct (lookup_lt_is_Some_2 r (Z.to_nat j)) as [b ->]; [lia|].
    by eexists.
Qed.

Lemma Swap_exchange_witness :
  length [mkRange 20 30; mkRange 10 20] = 2%nat
  /\ index [mkRange 20 30; mkRange 10 20] 0 = Some (mkRange 20 30)
  /\ index [mkRange 20 30; mkRange 10 20] 1 = Some (mkRange 10 20)
  /\ (forall k, k <> 0 -> k <> 1 ->
        index [mkRange 20 30; mkRange 10 20] k
        = index [mkRange 10 20; mkRange 20 30] k)
  /\ Swap [mkRange 20 30; mkRange 10 20] 0 1
     = Done [mkRange 10 20; mkRange 20 30].
Proof.
  apply (proj1 (Swap_exchange [mkRange 10 20; mkRange 20 30] 0 1)).
  reflexivity.
Defined.

(** [Less] compares start blocks only: on valid indices it is irreflexive,
    asymmetric and transitive, two ranges with the same start are not
    ordered either way, and swapping two positions swaps their order. *)
Theorem Less_strict_order (r : Ranges) (i j k : Z) (a b c : Range) :
  index r i = Some a -> index r j = Some b -> index r k = Some c ->
  Less r i i = Done false
  /\ (Less r i j = Done true -> Less r j i = Done false)
  /\ (Less r i j = Done true -> Less r j k = Done true ->
      Less r i k = Done true)
  /\ (StartBlock a = StartBlock b ->
      Less r i j = Done false /\ Less r j i = Done false)
  /\ (forall r', Swap r i j = Done r' -> Less r' i j = Less r j i).
Proof.
  intros Hi Hj Hk. unfold Less. rewrite Hi, Hj, Hk.
  split; [by rewrite Z.ltb_irrefl|].
  split.
  { intros [= H]. apply Z.ltb_lt in H. f_equal. apply Z.ltb_ge. lia. }
  split.
  { intros [= H1] [= H2]. apply Z.ltb_lt in H1, H2. f_equal.
    apply Z.ltb_lt. lia. }
  split.
  { intros ->. by rewrite Z.ltb_irrefl. }
  intros r' Hswap.
  destruct (Swap_exchange_aux r i j r' Hswap) as (_ & -> & -> & _).
  by rewrite Hi, Hj.
Qed.

End RangeMore.

(** ** Work planning: edge cases, panics, coverage *)

Section PlanningMore.
Import block orchestrator.

Lemma Less_strict_order_witness :
  Less [mkRange 10 20; mkRange 20 30; mkRange 30 40] 0 0 = Done false
  /\ (Less [mkRange 10 20; mkRange 20 30; mkRange 30 40] 0 1 = Done true ->
      Less [mkRange 10 20; mkRange 20 30; mkRange 30 40] 1 0 = Done false)
  /\ (Less [mkRange 10 20; mkRange 20 30; mkRange 30 40] 0 1 = Done true ->
      Less [mkRange 10 20; mkRange 20 30; mkRange 30 40] 1 2 = Done true ->
      Less [mkRange 10 20; mkRange 20 30; mkRange 30 40] 0 2 = Done true)
  /\ (10 = 20 ->
      Less [mkRange 10 20; mkRange 20 30; mkRange 30 40] 0 1 = Done false
      /\ Less [mkRange 10 20; mkRange 20 30; mkRange 30 40] 1 0 = Done false)
  /\ (forall r',
        Swap [mkRange 10 20; mkRange 20 30; mkRange 30 40] 0 1 = Done r' ->
        Less r' 0 1
        = Less [mkRange 10 20; mkRange 20 30; mkRange 30 40] 1 0).
Proof.
  apply (Less_strict_order [mkRange 10 20; mkRange 20 30; mkRange 30 40]
           0 1 2 (mkRange 10 20) (mkRange 20 30) (mkRange 30 40));
    reflexivity.
Defined.

(** For a mapper module without a complete snapshot at or before the request
    start, [MapsSplitWork] plans nothing: back-processing starts at the
    request start, so the loop is not entered, whatever the save interval. *)
Theorem MapsSplitWork_no_snapshot fuel modName s req snaps :
  LastCompleteSnapshotBefore snaps req = None ->
  MapsSplitWork fuel modName s req snaps
  = Done {| modName := modName; initialStoreFile := None;
            partialsMissing := []; partialsPresent := [] |}.
Proof.
  intros Hnone. unfold MapsSplitWork. rewrite Hnone.
  destruct fuel; simpl; by rewrite Z.ltb_irrefl.
Qed.

Lemma MapsSplitWork_no_snapshot_witness :
  MapsSplitWork 0 "m" 0 3500
    {| Completes := [NewRange 0 4000]; Partials := [NewRange 1000 2000] |}
  = Done {| modName := "m"; initialStoreFile := None;
            partialsMissing := []; partialsPresent := [] |}.
Proof.
  apply (MapsSplitWork_no_snapshot 0 "m"%string 0 3500). reflexivity.
Defined.



(** The planning loop panics only on a zero save interval. *)
Lemma splitLoop_panic fuel s req snaps ptr w msg :
  splitLoop fuel s req snaps ptr w = Panicked msg ->
  msg = "integer divide by zero"%string /\ s = 0.
Proof.
  revert ptr w. induction fuel as [|fuel IH]; intros ptr w; simpl;
    destruct (ptr <? req); try discriminate.
  destruct (Z.eqb_spec s 0) as [->|Hs].
  - by intros [= <-].
  - apply IH.
Qed.

(** [StoresSplitWork] panics with "cannot have saved last store before
    module's init block" exactly when the request starts after the module's
    initial block and the latest complete snapshot ends at or before that
    initial block; its only other panic is the division by a zero save
    interval. *)
Theorem StoresSplitWork_panics fuel modName s init req snaps :
  (StoresSplitWork fuel modName s init req snaps
   = Panicked "cannot have saved last store before module's init block"
   <-> init < req
       /\ exists c, LastCompleteSnapshotBefore snaps req = Some c
                    /\ ExclusiveEndBlock c <= init)
  /\ (forall msg,
        StoresSplitWork fuel modName s init req snaps = Panicked msg ->
        msg = "cannot have saved last store before module's init block"%string
        \/ (msg = "integer divide by zero"%string /\ s = 0)).
Proof.
  unfold StoresSplitWork. split; [split|].
  - destruct (Z.leb_spec req init); [discriminate|].
    destruct (LastCompleteSnapshotBefore snaps req) as [c|].
    + destruct (Z.leb_spec (ExclusiveEndBlock c) init).
      * intros _. split; [lia|]. by exists c.
      * destruct (_ =? req); [discriminate|].
        intros H'. apply splitLoop_panic in H' as [H' _]. discriminate.
    + intros H'. apply splitLoop_panic in H' as [H' _]. discriminate.
  - intros [Hlt (c & -> & Hc)].
    destruct (Z.leb_spec req init); [lia|].
    destruct (Z.leb_spec (ExclusiveEndBlock c) init); [done|lia].
  - intros msg. destruct (req <=? init); [discriminate|].
    destruct (LastCompleteSnapshotBefore snaps req) as [c|].
    + destruct (ExclusiveEndBlock c <=? init).
      * intros [= <-]. by left.
      * destruct (_ =? req); [discriminate|].
        intros H'. right. by apply splitLoop_panic in H'.
    + intros H'. right. by apply splitLoop_panic in H'.
Qed.

Lemma StoresSplitWork_panics_witness :
  StoresSplitWork 5 "m" 1000 2000 3500
    {| Completes := [NewRange 0 1000]; Partials := [] |}
  = Panicked "cannot have saved last store before module's init block".
Proof.
  apply (proj1 (StoresSplitWork_panics 5 "m"%string 1000 2000 3500
                  {| Completes := [NewRange 0 1000]; Partials := [] |})).
  split; [lia|]. exists (NewRange 0 1000). split; [reflexivity|simpl; lia].
Defined.

(** A zero save interval makes both planners panic on the division as
    soon as one range is left to plan. *)
Theorem SplitWork_zero_interval fuel modName init req snaps :
  init < req ->
  match LastCompleteSnapshotBefore snaps req with
  | Some c => init < ExclusiveEndBlock c < req
  | None => True
  end ->
  StoresSplitWork (S fuel) modName 0 init req snaps
  = Panicked "integer divide by zero"
  /\ (forall c, LastCompleteSnapshotBefore snaps req = Some c ->
        MapsSplitWork (S fuel) modName 0 req snaps
        = Panicked "integer divide by zero").
Proof.
  intros Hreq Hsnap. unfold StoresSplitWork, MapsSplitWork.
  destruct (Z.leb_spec req init); [lia|].
  destruct (LastCompleteSnapshotBefore snaps req) as [c|].
  - destruct (Z.leb_spec (ExclusiveEndBlock c) init); [lia|].
    destruct (Z.eqb_spec (ExclusiveEndBlock c) req); [lia|].
    simpl. destruct (Z.ltb_spec (ExclusiveEndBlock c) req); [|lia].
    split; [reflexivity|]. intros c' [= <-].
    destruct (Z.eqb_spec (ExclusiveEndBlock c) req); [lia|].
    destruct (Z.ltb_spec (ExclusiveEndBlock c) req); [reflexivity|lia].
  - simpl. destruct (Z.ltb_spec init req); [|lia].
    split; [reflexivity|]. discriminate.
Qed.

Lemma SplitWork_zero_interval_witness :
  StoresSplitWork 1 "m" 0 0 3500
    {| Completes := [NewRange 0 1000]; Partials := [] |}
  = Panicked "integer divide by zero"
  /\ (forall c,
        LastCompleteSnapshotBefore
          {| Completes := [NewRange 0 1000]; Partials := [] |} 3500 = Some c ->
        MapsSplitWork 1 "m" 0 3500
          {| Completes := [NewRange 0 1000]; Partials := [] |}
        = Panicked "integer divide by zero").
Proof.
  apply (SplitWork_zero_interval 0 "m"%string 0 3500
           {| Completes := [NewRange 0 1000]; Partials := [] |}).
  - lia.
  - simpl. lia.
Defined.

(** When the latest complete snapshot ends exactly at the request start,
    nothing is left to back-process: both planners return at once, with no
    partial, whatever the save interval; the store planner's initial file is
    [[modInitBlock, requestStart)]. *)
Theorem SplitWork_snapshot_at_request fuel modName s init req snaps c :
  init < req ->
  LastCompleteSnapshotBefore snaps req = Some c ->
  ExclusiveEndBlock c = req ->
  StoresSplitWork fuel modName s init req snaps
  = Done {| modName := modName;
            initialStoreFile := Some (NewRange init req);
            partialsMissing := []; partialsPresent := [] |}
  /\ exists w,
       MapsSplitWork fuel modName s req snaps = Done w
       /\ partialsMissing w = [] /\ partialsPresent w = [].
Proof.
  intros Hreq Hc Hend. unfold StoresSplitWork, MapsSplitWork. rewrite Hc, Hend.
  destruct (Z.leb_spec req init); [lia|]. rewrite Z.eqb_refl. split.
  - reflexivity.
  - eexists. split; [reflexivity|]. split; reflexivity.
Qed.

Lemma SplitWork_snapshot_at_request_witness :
  StoresSplitWork 0 "m" 0 0 2000
    {| Completes := [NewRange 0 1000; NewRange 0 2000]; Partials := [] |}
  = Done {| modName := "m";
            initialStoreFile := Some (NewRange 0 2000);
            partialsMissing := []; partialsPresent := [] |}
  /\ exists w,
       MapsSplitWork 0 "m" 0 2000
         {| Completes := [NewRange 0 1000; NewRange 0 2000]; Partials := [] |}
       = Done w
       /\ partialsMissing w = [] /\ partialsPresent w = [].
Proof.
  apply (SplitWork_snapshot_at_request 0 "m"%string 0 0 2000
           {| Completes := [NewRange 0 1000; NewRange 0 2000]; Partials := [] |}
           (NewRange 0 2000)).
  - lia.
  - reflexivity.
  - reflexivity.
Defined.

End PlanningMore.

Section PlanningCoverage.
Import block orchestrator.

Lemma filter_split_elem (f : Range -> bool) (rs : list Range) (r : Range) :
  r ∈ List.filter (fun x => negb (f x)) rs ++ List.filter f rs <-> r ∈ rs.
Proof.
  rewrite elem_of_app, !list_elem_of_In, !filter_In.
  destruct (f r); simpl; intuition congruence.
Qed.

Lemma filter_split_disjoint (f : Range -> bool) (rs : list Range) (r : Range) :
  ~ (r ∈ List.filter (fun x => negb (f x)) rs /\ r ∈ List.filter f rs).
Proof.
  rewrite !list_elem_of_In, !filter_In.
  destruct (f r); simpl; intuition congruence.
Qed.

Lemma chained_unique a b l r1 r2 n :
  chained a b l -> r1 ∈ l -> r2 ∈ l ->
  Contains r1 n = true -> Contains r2 n = true -> r1 = r2.
Proof.
  intros Hch H1 H2 Hn1 Hn2.
  apply list_elem_of_lookup in H1 as [i Hi].
  apply list_elem_of_lookup in H2 as [j Hj].
  destruct (decide (i = j)) as [->|Hne]; [congruence|].
  destruct (chained_disjoint _ _ _ Hch i j r1 r2 n Hne Hi Hj). by split.
Qed.

(** The partials of a store plan tile the range to back-process: every
    block from the back-processing start to the request start lies in
    exactly one planned partial, no partial reaches outside, and no partial
    is both missing and present. *)
Theorem StoresSplitWork_covers modName s init req snaps :
  0 < s -> 0 <= init < req -> req + s <= uint64_modulus ->
  match LastCompleteSnapshotBefore snaps req with
  | Some c => init < ExclusiveEndBlock c
  | None => True
  end ->
  exists w,
    (forall fuel, (Z.to_nat (req - init) <= fuel)%nat ->
                  StoresSplitWork fuel modName s init req snaps = Done w)
    /\ (forall n,
          (exists r, r ∈ partialsMissing w ++ partialsPresent w
                     /\ Contains r n = true)
          <-> match LastCompleteSnapshotBefore snaps req with
              | Some c => ExclusiveEndBlock c
              | None => init
              end <= n < req)
    /\ (forall r1 r2 n,
          r1 ∈ partialsMissing w ++ partialsPresent w ->
          r2 ∈ partialsMissing w ++ partialsPresent w ->
          Contains r1 n = true -> Contains r2 n = true -> r1 = r2)
    /\ (forall r, ~ (r ∈ partialsMissing w /\ r ∈ partialsPresent w)).
Proof.
  intros Hs Hinit Hov Hsnap.
  destruct (StoresSplitWork_total modName s init req snaps Hs Hinit Hov Hsnap)
    as (w & rs & Hrun & _ & Hch & _ & Hmiss & Hpres).
  exists w. split; [exact Hrun|]. rewrite Hmiss, Hpres. split; [|split].
  - intros n. rewrite <- (chained_covers _ _ _ n Hch).
    split; intros (r & Hr & Hn); exists r; split; try done.
    + by apply (filter_split_elem (ContainsPartial snaps)).
    + by apply (filter_split_elem (ContainsPartial snaps)).
  - intros r1 r2 n H1 H2. apply filter_split_elem in H1, H2.
    by apply (chained_unique _ _ _ _ _ _ Hch).
  - intros r. apply filter_split_disjoint.
Qed.

Lemma StoresSplitWork_covers_witness :
  exists w,
    (forall fuel, (Z.to_nat (3500 - 0) <= fuel)%nat ->
       StoresSplitWork fuel "m" 1000 0 3500
         {| Completes := [NewRange 0 1000]; Partials := [NewRange 1000 2000] |}
       = Done w)
    /\ (forall n,
          (exists r, r ∈ partialsMissing w ++ partialsPresent w
                     /\ Contains r n = true)
          <-> 1000 <= n < 3500)
    /\ (forall r1 r2 n,
          r1 ∈ partialsMissing w ++ partialsPresent w ->
          r2 ∈ partialsMissing w ++ partialsPresent w ->
          Contains r1 n = true -> Contains r2 n = true -> r1 = r2)
    /\ (forall r, ~ (r ∈ partialsMissing w /\ r ∈ partialsPresent w)).
Proof.
  apply (StoresSplitWork_covers "m"%string 1000 0 3500
           {| Completes := [NewRange 0 1000];
              Partials := [NewRange 1000 2000] |}).
  - lia.
  - lia.
  - rewrite uint64_modulus_eq. lia.
  - simpl. lia.
Defined.

(** What the loop adds to the work unit, when nothing wraps: ranges that
    start at or after [ptr], before the request start, and end at the next
    save-interval boundary or at the request start. *)
Lemma splitLoop_new_ranges s req snaps :
  0 < s -> req + s <= uint64_modulus ->
  forall fuel ptr w w' r,
    0 <= ptr ->
    splitLoop fuel s req snaps ptr w = Done w' ->
    r ∈ partialsMissing w' ++ partialsPresent w' ->
    r ∈ partialsMissing w ++ partialsPresent w
    \/ (ptr <= StartBlock r < req
        /\ ExclusiveEndBlock r
           = Z.min (StartBlock r - StartBlock r mod s + s) req).
Proof.
  intros Hs Hov. induction fuel as [|fuel IH]; intros ptr w w' r Hptr; simpl.
  - destruct (ptr <? req); [discriminate|]. intros [= <-]. by left.
  - destruct (Z.ltb_spec ptr req) as [Hlt|Hge]; [|intros [= <-]; by left].
    destruct (Z.eqb_spec s 0) as [->|_]; [lia|].
    pose proof (Z.mod_pos_bound ptr s Hs) as Hm.
    pose proof (Z.mod_le ptr s Hptr Hs) as Hml.
    pose proof (nextBoundary_exact ptr s Hs Hptr ltac:(lia)) as Hnb.
    set (end_ := minOf (nextBoundary ptr s) req).
    assert (Hend : end_ = Z.min (ptr - ptr mod s + s) req).
    { unfold end_. by rewrite minOf_min, Hnb. }
    intros Hrun Hr.
    destruct (IH end_ _ w' r ltac:(lia) Hrun Hr) as [Hold|[Hnew Hshape]].
    + assert (Hcase : r ∈ partialsMissing w ++ partialsPresent w
                      \/ r = NewRange ptr end_).
      { destruct (negb (ContainsPartial snaps (NewRange ptr end_)));
          simpl in Hold; rewrite !elem_of_app in Hold;
          rewrite ?list_elem_of_singleton in Hold; rewrite elem_of_app;
          tauto. }
      destruct Hcase as [Hold'| ->]; [by left|].
      right. simpl. split; [lia | exact Hend].
    + right. split; [lia | exact Hshape].
Qed.

(** No planned partial is empty, longer than the save interval, or astride a
    save-interval boundary: its first and last block belong to the same
    interval. *)
Theorem StoresSplitWork_aligned modName s init req snaps :
  0 < s -> 0 <= init < req -> req + s <= uint64_modulus ->
  match LastCompleteSnapshotBefore snaps req with
  | Some c => init < ExclusiveEndBlock c
  | None => True
  end ->
  exists w,
    (forall fuel, (Z.to_nat (req - init) <= fuel)%nat ->
                  StoresSplitWork fuel modName s init req snaps = Done w)
    /\ forall r,
         r ∈ partialsMissing w ++ partialsPresent w ->
         StartBlock r < ExclusiveEndBlock r <= req
         /\ ExclusiveEndBlock r - StartBlock r <= s
         /\ StartBlock r / s = (ExclusiveEndBlock r - 1) / s.
Proof.
  intros Hs Hinit Hov Hsnap.
  destruct (StoresSplitWork_total modName s init req snaps Hs Hinit Hov Hsnap)
    as (w & rs & Hrun & _).
  exists w. split; [exact Hrun|]. intros r Hr.
  assert (Hnew : 0 <= StartBlock r < req
                 /\ ExclusiveEndBlock r
                    = Z.min (StartBlock r - StartBlock r mod s + s) req).
  { specialize (Hrun _ (Nat.le_refl _)). revert Hrun.
    unfold StoresSplitWork. destruct (Z.leb_spec req init); [lia|].
    destruct (LastCompleteSnapshotBefore snaps req) as [c|].
    - destruct (Z.leb_spec (ExclusiveEndBlock c) init); [lia|].
      destruct (_ =? req).
      + intros [= <-]. simpl in Hr. by apply elem_of_nil in Hr.
      + intros Hloop.
        destruct (splitLoop_new_ranges s req snaps Hs Hov _
                    (ExclusiveEndBlock c) _ _ r
                    ltac:(lia) Hloop Hr) as [Hold|[Hb Hsh]].
        * simpl in Hold. by apply elem_of_nil in Hold.
        * split; [lia | exact Hsh].
    - intros Hloop.
      destruct (splitLoop_new_ranges s req snaps Hs Hov _ init _ _ r
                  ltac:(lia) Hloop Hr) as [Hold|[Hb Hsh]].
      + simpl in Hold. by apply elem_of_nil in Hold.
      + split; [lia | exact Hsh]. }
  destruct Hnew as [Hb Hsh].
  pose proof (Z.mod_pos_bound (StartBlock r) s Hs) as Hm.
  pose proof (Z.div_mod (StartBlock r) s ltac:(lia)) as Hdm.
  split; [lia|]. split; [lia|].
  apply (Z.div_unique (ExclusiveEndBlock r - 1) s (StartBlock r / s)
           (ExclusiveEndBlock r - 1 - s * (StartBlock r / s))); lia.
Qed.

Lemma StoresSplitWork_aligned_witness :
  exists w,
    (forall fuel, (Z.to_nat (3500 - 250) <= fuel)%nat ->
       StoresSplitWork fuel "m" 1000 250 3500
         {| Completes := []; Partials := [NewRange 1000 2000] |} = Done w)
    /\ forall r,
         r ∈ partialsMissing w ++ partialsPresent w ->
         StartBlock r < ExclusiveEndBlock r <= 3500
         /\ ExclusiveEndBlock r - StartBlock r <= 1000
         /\ StartBlock r / 1000 = (ExclusiveEndBlock r - 1) / 1000.
Proof.
  apply (StoresSplitWork_aligned "m"%string 1000 250 3500
           {| Completes := []; Partials := [NewRange 1000 2000] |}).
  - lia.
  - lia.
  - rewrite uint64_modulus_eq. lia.
  - exact I.
Defined.

(** Units without partials on storage are passed over by the squashing
    loop. *)
Lemma squashLoop_all_empty {S E : Type}
    (Squash : S -> string -> Ranges -> S * option E)
    (units : list (string * WorkUnit)) (squasher : S) :
  Forall (fun u => partialsPresent u.2 = []) units ->
  squashLoop Squash units squasher = (squasher, None).
Proof.
  induction 1 as [|[k w] units Hw _ IH]; simpl; [done|].
  simpl in Hw. rewrite Hw. simpl. exact IH.
Qed.

Lemma squashLoop_error {S E : Type}
    (Squash : S -> string -> Ranges -> S * option E)
    (units : list (string * WorkUnit)) (squasher squasher' : S) m e :
  squashLoop Squash units squasher = (squasher', Some (SquashFailed m e)) ->
  exists k w before,
    (k, w) ∈ units /\ modName w = m /\ partialsPresent w <> []
    /\ Squash before (modName w) (partialsPresent w) = (squasher', Some e).
Proof.
  revert squasher. induction units as [|[k w] units IH]; intros squasher; simpl.
  - discriminate.
  - destruct (partialsPresent w) as [|p ps] eqn:Hp; simpl.
    + intros H. apply IH in H as (k' & w' & b & Hin & Hrest).
      exists k', w', b. split; [apply elem_of_cons; by right | exact Hrest].
    + destruct (Squash squasher (modName w) (p :: ps)) as [sq1 [err|]] eqn:Hsq.
      * intros [= <- <- <-]. exists k, w, squasher.
        rewrite Hp. split; [apply elem_of_cons; by left|]. by repeat split.
      * intros H. apply IH in H as (k' & w' & b & Hin & Hrest).
        exists k', w', b. split; [apply elem_of_cons; by right | exact Hrest].
Qed.

(** [SquashPartialsPresent] leaves the squasher untouched and returns no
    error when no unit of the plan has partials on storage; and an error it
    returns names the module of a unit of the plan whose non-empty
    [partialsPresent] the squasher refused, with that very error as its
    cause. *)
Theorem SquashPartialsPresent_calls {S E : Type}
    (Squash : S -> string -> Ranges -> S * option E)
    (p : gmap string WorkUnit) (squasher : S) :
  ((forall k w, p !! k = Some w -> partialsPresent w = []) ->
   SquashPartialsPresent Squash p squasher = (squasher, None))
  /\ (forall squasher' m e,
        SquashPartialsPresent Squash p squasher
        = (squasher', Some (SquashFailed m e)) ->
        exists k w before,
          p !! k = Some w /\ modName w = m /\ partialsPresent w <> []
          /\ Squash before (modName w) (partialsPresent w)
             = (squasher', Some e)).
Proof.
  unfold SquashPartialsPresent. split.
  - intros Hall. apply squashLoop_all_empty. apply Forall_forall.
    intros [k w] Hin. apply elem_of_map_to_list in Hin. simpl. eauto.
  - intros squasher' m e H.
    apply squashLoop_error in H as (k & w & b & Hin & Hrest).
    exists k, w, b. split; [by apply elem_of_map_to_list | exact Hrest].
Qed.

End PlanningCoverage.

(** ** The instance: calls with arguments, the response record *)

Section InstanceMore.
Import wasm samples.

Lemma SquashPartialsPresent_calls_witness :
  orchestrator.SquashPartialsPresent
    (fun (log : list string) m (_ : block.Ranges) => (log ++ [m], @None string))
    {[ "m"%string := orchestrator.newWorkUnit "m" ]} []
  = ([], None).
Proof.
  apply (proj1 (SquashPartialsPresent_calls
                  (fun (log : list string) m (_ : block.Ranges) =>
                     (log ++ [m], @None string))
                  {[ "m"%string := orchestrator.newWorkUnit "m" ]} [])).
  intros k w Hk. apply lookup_singleton_Some in Hk as [_ <-]. reflexivity.
Defined.

Lemma isCleanExit_true e : isCleanExit e = true <-> e = ExitError 0.
Proof.
  destruct e as [code| | |]; simpl; try (split; [discriminate|discriminate]).
  rewrite Z.eqb_eq. split; [by intros -> | by intros [= ->]].
Qed.

(** [ExecuteWithArgs] keeps the slots the guest wrote and succeeds exactly
    when the engine reports no error or exit code 0; otherwise it returns the
    recorded panic if there is one, else the engine's error wrapped.  Called
    with the instance's own arguments it agrees with [Execute] on the
    instance, on success, and on the error whenever a panic is recorded. *)
Theorem ExecuteWithArgs_contract (i : Instance) (a : list Z) st err :
  entrypoint i a (slots i) = (st, err) ->
  (ExecuteWithArgs i a).1 = withSlots i st
  /\ ((ExecuteWithArgs i a).2 = None
      <-> err = None \/ err = Some (ExitError 0))
  /\ (forall failure,
        (ExecuteWithArgs i a).2 = Some failure ->
        match panicError st with
        | Some p => failure = Panic p
        | None =>
            exists cause,
              err = Some cause
              /\ failure = Errorf "executing with args entrypoint %q: %w"
                             (functionName i) cause
        end)
  /\ (a = args i ->
      (Execute i).1 = (ExecuteWithArgs i a).1
      /\ ((Execute i).2 = None <-> (ExecuteWithArgs i a).2 = None)
      /\ (forall p, panicError st = Some p ->
                    (Execute i).2 = (ExecuteWithArgs i a).2)).
Proof.
  intros Hcall. unfold ExecuteWithArgs. rewrite Hcall.
  assert (Hexec : a = args i ->
            Execute i
            = (withSlots i st,
               match err with
               | None => None
               | Some e =>
                   if isCleanExit e then None
                   else Some match panicError st with
                             | Some p => Panic p
                             | None => Errorf "executing entrypoint %q: %w"
                                         (functionName i) e
                             end
               end)).
  { intros ->. by apply Execute_eq. }
  destruct err as [e|].
  - destruct (isCleanExit e) eqn:Hclean.
    + apply isCleanExit_true in Hclean as ->. simpl.
      split; [done|]. split; [split; [by right | done]|].
      split; [discriminate|]. intros Ha. rewrite (Hexec Ha). simpl.
      by repeat split.
    + assert (Hne : e <> ExitError 0).
      { intros ->. simpl in Hclean. discriminate. }
      simpl. destruct (panicError st) as [p|] eqn:Hp; simpl.
      * split; [done|]. split; [split; [discriminate|]|].
        { intros [H'|[= H']]; [discriminate | by subst e]. }
        split; [by intros failure [= <-]|].
        intros Ha. rewrite (Hexec Ha). simpl.
        split; [done|]. split; [done | by intros p' _].
      * split; [done|]. split; [split; [discriminate|]|].
        { intros [H'|[= H']]; [discriminate | by subst e]. }
        split; [intros failure [= <-]; by exists e|].
        intros Ha. rewrite (Hexec Ha). simpl.
        split; [done|]. split; [done | discriminate].
  - simpl. split; [done|]. split; [split; [by left | done]|].
    split; [discriminate|]. intros Ha. rewrite (Hexec Ha). simpl.
    by repeat split.
Qed.

Lemma ExecuteWithArgs_contract_witness :
  (ExecuteWithArgs (panickingInstance somePanic (Some (Trap "unreachable")))
     [1; 2]).1
  = withSlots (panickingInstance somePanic (Some (Trap "unreachable")))
      {| returnValue := nil_bytes; panicError := Some somePanic;
         Logs := []; LogsByteCount := 0 |}
  /\ ((ExecuteWithArgs
         (panickingInstance somePanic (Some (Trap "unreachable"))) [1; 2]).2
      = None
      <-> Some (Trap "unreachable") = None
          \/ Some (Trap "unreachable") = Some (ExitError 0)).
Proof.
  destruct (ExecuteWithArgs_contract
              (panickingInstance somePanic (Some (Trap "unreachable")))
              [1; 2]
              {| returnValue := nil_bytes; panicError := Some somePanic;
                 Logs := []; LogsByteCount := 0 |}
              (Some (Trap "unreachable")) eq_refl) as (Hslots & Hok & _).
  split; [exact Hslots | exact Hok].
Defined.

Lemma byteOf_value v : Z.of_N (Byte.to_N (byteOf v)) = v mod 2 ^ 8.
Proof.
  unfold byteOf. change (2 ^ 8) with 256.
  pose proof (Z.mod_pos_bound v 256 ltac:(lia)) as Hb.
  destruct (Byte.of_N (Z.to_N (v mod 256))) as [b|] eqn:Hof; simpl.
  - apply Byte.to_of_N in Hof. rewrite Hof. lia.
  - apply Byte.of_N_None_iff in Hof. lia.
Qed.

(** Reading back the four bytes [PutUint32] writes gives the low 32 bits. *)
Lemma Uint32_PutUint32 v : Uint32 (PutUint32 v) = v mod 2 ^ 32.
Proof.
  unfold Uint32, PutUint32. rewrite !byteOf_value.
  apply Z.bits_inj'. intros n Hn.
  rewrite !Z.lor_spec, !Z.shiftl_spec by lia.
  rewrite !Z.testbit_mod_pow2 by lia.
  destruct (Z.ltb_spec n 8); destruct (Z.ltb_spec (n - 8) 8);
    destruct (Z.ltb_spec (n - 16) 8); destruct (Z.ltb_spec (n - 24) 8);
    destruct (Z.ltb_spec n 32); try lia; simpl;
    rewrite ?(Z.testbit_neg_r _ (n - 8)), ?(Z.testbit_neg_r _ (n - 16)),
      ?(Z.testbit_neg_r _ (n - 24)) by lia;
    rewrite ?Z.shiftr_spec by lia;
    rewrite ?orb_false_r, ?orb_false_l; try reflexivity;
    f_equal; lia.
Qed.

(** [WriteOutputToHeap] writes the value first; if that fails the response
    is not written and the error is wrapped.  Otherwise it writes at
    [outputPtr] a record of exactly eight bytes whose first four read back
    (little-endian) as the pointer to the value and whose last four as the
    length of the value modulo [2^32], and it fails exactly when that second
    write fails. *)
Theorem WriteOutputToHeap_record {H : Type}
    (Write : H -> list Byte.byte -> H * (error + Z))
    (WriteAtPtr : H -> list Byte.byte -> Z -> H * option error)
    (h : H) (outputPtr : Z) (value : list Byte.byte) :
  (forall h1 err,
     Write h value = (h1, inl err) ->
     WriteOutputToHeap Write WriteAtPtr h outputPtr value
     = (h1, Some (Errorf "writting value to heap: %w" EmptyString err)))
  /\ (forall h1 valuePtr,
        Write h value = (h1, inr valuePtr) ->
        0 <= valuePtr < 2 ^ 32 ->
        exists record,
          length record = 8%nat
          /\ Uint32 (take 4 record) = valuePtr
          /\ Uint32 (drop 4 record) = Z.of_nat (length value) mod 2 ^ 32
          /\ (WriteOutputToHeap Write WriteAtPtr h outputPtr value).1
             = (WriteAtPtr h1 record outputPtr).1
          /\ ((WriteOutputToHeap Write WriteAtPtr h outputPtr value).2 = None
              <-> (WriteAtPtr h1 record outputPtr).2 = None)).
Proof.
  unfold WriteOutputToHeap. split.
  - intros h1 err ->. reflexivity.
  - intros h1 valuePtr -> Hptr. exists (responseRecord valuePtr value).
    split; [reflexivity|].
    split.
    { change (take 4 (responseRecord valuePtr value))
        with (PutUint32 valuePtr).
      rewrite Uint32_PutUint32. by apply Z.mod_small. }
    split.
    { change (drop 4 (responseRecord valuePtr value))
        with (PutUint32 (Z.of_nat (length value) mod 2 ^ 32)).
      rewrite Uint32_PutUint32. apply Z.mod_mod. lia. }
    destruct (WriteAtPtr h1 (responseRecord valuePtr value) outputPtr)
      as [h2 [e|]]; simpl; by repeat split.
Qed.

Lemma WriteOutputToHeap_record_witness :
  exists record,
    length record = 8%nat
    /\ Uint32 (take 4 record) = 4096
    /\ Uint32 (drop 4 record)
       = Z.of_nat (length [Byte.x01; Byte.x02; Byte.x03]) mod 2 ^ 32
    /\ (WriteOutputToHeap
          (fun (h : list (Z * list Byte.byte)) v =>
             (h ++ [(4096, v)], @inr error Z 4096))
          (fun h v ptr => (h ++ [(ptr, v)], None))
          [] 64 [Byte.x01; Byte.x02; Byte.x03]).1
       = ((fun (h : list (Z * list Byte.byte)) v ptr =>
             (h ++ [(ptr, v)], @None error))
            [(4096, [Byte.x01; Byte.x02; Byte.x03])] record 64).1
    /\ ((WriteOutputToHeap
           (fun (h : list (Z * list Byte.byte)) v =>
              (h ++ [(4096, v)], @inr error Z 4096))
           (fun h v ptr => (h ++ [(ptr, v)], None))
           [] 64 [Byte.x01; Byte.x02; Byte.x03]).2 = None
        <-> ((fun (h : list (Z * list Byte.byte)) v ptr =>
                (h ++ [(ptr, v)], @None error))
               [(4096, [Byte.x01; Byte.x02; Byte.x03])] record 64).2 = None).
Proof.
  apply (proj2 (WriteOutputToHeap_record
                  (fun (h : list (Z * list Byte.byte)) v =>
                     (h ++ [(4096, v)], @inr error Z 4096))
                  (fun h v ptr => (h ++ [(ptr, v)], None))
                  [] 64 [Byte.x01; Byte.x02; Byte.x03])
           [(4096, [Byte.x01; Byte.x02; Byte.x03])] 4096).
  - reflexivity.
  - lia.
Defined.

End InstanceMore.

(** ** The mapper executor: when the engine runs, what gets cached *)

Section ExecutorMore.
Import pbsubstreams pipeline samples.

(** The binding loop in closed form. *)
Lemma bindInputs_closed vals inputs :
  forall h0,
    bindInputs vals inputs h0
    = if existsb undeclaredInput inputs
      then Panicked "Invalid input type"
      else Done (boundInput vals <$> inputs,
                 h0 || existsb (feedsInput vals) inputs).
Proof.
  induction inputs as [|input rest IH]; intros h0; simpl.
  - by rewrite orb_false_r.
  - assert (Hu : undeclaredInput input
                 = match wasm.Type_ input with
                   | wasm.OtherInputType _ => true
                   | _ => false
                   end) by reflexivity.
    assert (Hf : feedsInput vals input
                 = match wasm.Type_ input with
                   | wasm.InputSource =>
                       negb (len (default nil_bytes
                                    (vals !! wasm.Name input)) =? 0)
                   | wasm.InputStore => true
                   | _ => false
                   end) by reflexivity.
    assert (Hb : boundInput vals input
                 = match wasm.Type_ input with
                   | wasm.InputSource =>
                       withStreamData input
                         (if len (default nil_bytes
                                    (vals !! wasm.Name input)) =? 0
                          then nil_bytes
                          else default nil_bytes (vals !! wasm.Name input))
                   | _ => input
                   end) by reflexivity.
    rewrite Hu, Hf, Hb. clear Hu Hf Hb.
    destruct (wasm.Type_ input) as [| | |n]; simpl.
    + destruct (len (default nil_bytes (vals !! wasm.Name input)) =? 0);
        simpl; rewrite IH; destruct (existsb undeclaredInput rest);
        simpl; rewrite ?orb_true_r; reflexivity.
    + rewrite IH. destruct (existsb undeclaredInput rest); [reflexivity|].
      by rewrite orb_true_r.
    + rewrite IH. by destruct (existsb undeclaredInput rest).
    + reflexivity.
Qed.

(** Everything [wasmCall] can do to the state when it returns. *)
Lemma wasmCall_frame clock st res st' :
  wasmCall clock st = Done (res, st') ->
  existsb undeclaredInput (wasmInputs (base (executor st))) = false
  /\ cache (base (executor st')) = cache (base (executor st))
  /\ moduleName (base (executor st')) = moduleName (base (executor st))
  /\ outputType (executor st') = outputType (executor st)
  /\ mapperOutput (executor st') = mapperOutput (executor st)
  /\ vals st' = vals st
  /\ wasmInputs (base (executor st'))
     = boundInput (vals st) <$> wasmInputs (base (executor st))
  /\ exists new,
       events st' = events st ++ new
       /\ Forall (fun ev => forall n, ev <> CallCacheSet n) new
       /\ (existsb (feedsInput (vals st)) (wasmInputs (base (executor st)))
           = false -> new = [] /\ res = (None, None))
       /\ (existsb (feedsInput (vals st)) (wasmInputs (base (executor st)))
           = true ->
           (exists rest, new = CallNewInstance (Number clock) :: rest)
           /\ res <> (None, None)).
Proof.
  unfold wasmCall, mbind, M_bind, getState, liftOutcome.
  rewrite bindInputs_closed.
  destruct (existsb undeclaredInput _); [discriminate|]. simpl.
  destruct (existsb (feedsInput (vals st)) _); simpl.
  - destruct (wasm.NewInstance _ clock _) as [err|instance]; simpl.
    + intros [= <- <-]. simpl. repeat split; try done.
      eexists. split; [reflexivity|]. split; [|split; [done|]].
      * repeat constructor; discriminate.
      * intros _. split; [by eexists | discriminate].
    + destruct (wasm.Execute instance) as [instance' [err|]]; simpl.
      * intros [= <- <-]. simpl. repeat split; try done.
        eexists. split; [by rewrite <- app_assoc|].
        split; [|split; [done|]].
        -- repeat constructor; discriminate.
        -- intros _. split; [by eexists | discriminate].
      * destruct (wasm.HeapClear _ instance') as [err|]; simpl.
        -- intros [= <- <-]. simpl. repeat split; try done.
           eexists. split; [by rewrite <- app_assoc|].
           split; [|split; [done|]].
           ++ repeat constructor; discriminate.
           ++ intros _. split; [by eexists | discriminate].
        -- intros [= <- <-]. simpl. repeat split; try done.
           eexists. split; [by rewrite <- app_assoc|].
           split; [|split; [done|]].
           ++ repeat constructor; discriminate.
           ++ intros _. split; [by eexists | discriminate].
  - intros [= <- <-]. simpl. repeat split; try done.
    exists []. split; [by rewrite app_nil_r|]. split; [constructor|].
    split; [done | discriminate].
Qed.

(** [wasmCall] panics exactly when some input has a type other than the
    three it names. *)
Lemma wasmCall_outcome clock st :
  if existsb undeclaredInput (wasmInputs (base (executor st)))
  then wasmCall clock st = Panicked "Invalid input type"
  else exists res st', wasmCall clock st = Done (res, st').
Proof.
  unfold wasmCall, mbind, M_bind, getState, liftOutcome.
  rewrite bindInputs_closed.
  destruct (existsb undeclaredInput _); [reflexivity|]. simpl.
  destruct (existsb (feedsInput (vals st)) _); simpl; [|by eexists _, _].
  destruct (wasm.NewInstance _ clock _) as [err|instance]; simpl;
    [by eexists _, _|].
  destruct (wasm.Execute instance) as [instance' [err|]]; simpl;
    [by eexists _, _|].
  destruct (wasm.HeapClear _ instance') as [err|]; simpl; by eexists _, _.
Qed.

(** [wasmCall] always returns when every input is of one of the three named
    types.  It then binds every source input to its value in [vals] (nil
    when empty), and it reaches the engine, with [NewInstance] as the first
    call, exactly when some input is a store or a source with a non-empty
    value; otherwise it makes no call and returns no instance and no
    error. *)
Theorem wasmCall_engine_use (clock : Clock) (st : State) :
  existsb undeclaredInput (wasmInputs (base (executor st))) = false ->
  exists res st' new,
    wasmCall clock st = Done (res, st')
    /\ wasmInputs (base (executor st'))
       = boundInput (vals st) <$> wasmInputs (base (executor st))
    /\ events st' = events st ++ new
    /\ (existsb (feedsInput (vals st)) (wasmInputs (base (executor st)))
        = false -> new = [] /\ res = (None, None))
    /\ (existsb (feedsInput (vals st)) (wasmInputs (base (executor st)))
        = true ->
        (exists rest, new = CallNewInstance (Number clock) :: rest)
        /\ res <> (None, None)).
Proof.
  intros Hdecl. pose proof (wasmCall_outcome clock st) as Hout.
  rewrite Hdecl in Hout. destruct Hout as (res & st' & Hrun).
  destruct (wasmCall_frame _ _ _ _ Hrun)
    as (_ & _ & _ & _ & _ & _ & Hinputs & new & Hev & _ & Hquiet & Hfed).
  exists res, st', new. split; [exact Hrun|]. split; [exact Hinputs|].
  split; [exact Hev|]. split; [exact Hquiet | exact Hfed].
Qed.

Lemma wasmCall_engine_use_witness :
  exists res st' new,
    wasmCall (clockAt 101) sampleState = Done (res, st')
    /\ wasmInputs (base (executor st'))
       = boundInput (vals sampleState)
           <$> wasmInputs (base (executor sampleState))
    /\ events st' = events sampleState ++ new
    /\ (existsb (feedsInput (vals sampleState))
          (wasmInputs (base (executor sampleState))) = false ->
        new = [] /\ res = (None, None))
    /\ (existsb (feedsInput (vals sampleState))
          (wasmInputs (base (executor sampleState))) = true ->
        (exists rest, new = CallNewInstance (Number (clockAt 101)) :: rest)
        /\ res <> (None, None)).
Proof.
  apply (wasmCall_engine_use (clockAt 101) sampleState). reflexivity.
Defined.

(** Everything [wasmMapCall] can do to the state when it returns. *)
Lemma wasmMapCall_frame clock st r st' :
  wasmMapCall clock st = Done (r, st') ->
  cache (base (executor st')) = cache (base (executor st))
  /\ moduleName (base (executor st')) = moduleName (base (executor st))
  /\ (exists new,
        events st' = events st ++ new
        /\ Forall (fun ev => forall n, ev <> CallCacheSet n) new)
  /\ match r with
     | Some _ =>
         mapperOutput (executor st') = mapperOutput (executor st)
         /\ vals st' = vals st
     | None =>
         vals st' = <[moduleName (base (executor st))
                      := mapperOutput (executor st')]> (vals st)
     end.
Proof.
  unfold wasmMapCall, mbind, M_bind.
  destruct (wasmCall clock st) as [[[vm err] st1]| |] eqn:Hcall;
    try discriminate.
  destruct (wasmCall_frame _ _ _ _ Hcall)
    as (_ & Hcache & Hname & _ & Hout & Hvals & _ & new & Hev & Hnew & _).
  destruct err as [err|].
  - intros [= <- <-]. split; [done|]. split; [done|].
    split; [by exists new | by split].
  - unfold getState. destruct vm as [vm|]; simpl; intros [= <- <-]; simpl;
      rewrite Hcache, Hname, Hvals; (split; [done|]); (split; [done|]);
      (split; [by exists new | done]).
Qed.

(** An input of an undeclared type makes [wasmCall] and [wasmMapCall]
    panic, and [run] with them on a cache miss; on a cache hit [run] does
    not look at the inputs and succeeds. *)
Theorem undeclared_input_panics (clock : Clock) (cursor : string) (st : State) :
  existsb undeclaredInput (wasmInputs (base (executor st))) = true ->
  wasmCall clock st = Panicked "Invalid input type"
  /\ wasmMapCall clock st = Panicked "Invalid input type"
  /\ (outputs.kv (cache (base (executor st))) !! Number clock = None ->
      run clock cursor st = Panicked "Invalid input type")
  /\ (is_Some (outputs.kv (cache (base (executor st))) !! Number clock) ->
      exists st', run clock cursor st = Done (None, st')).
Proof.
  intros Hbad. pose proof (wasmCall_outcome clock st) as Hcall.
  rewrite Hbad in Hcall.
  assert (Hmap : wasmMapCall clock st = Panicked "Invalid input type").
  { unfold wasmMapCall, mbind, M_bind. by rewrite Hcall. }
  split; [exact Hcall|]. split; [exact Hmap|]. split.
  - intros Hmiss. unfold run, mbind, M_bind, getState, outputs.Get.
    rewrite Hmiss. simpl. by rewrite Hmap.
  - intros [item Hitem]. unfold run, mbind, M_bind, getState, outputs.Get.
    rewrite Hitem. simpl. by eexists.
Qed.

Lemma undeclared_input_panics_witness :
  wasmCall (clockAt 101)
    (stateWith noEngine
       [blockInput; {| wasm.Type_ := wasm.OtherInputType 7;
                       wasm.Name := "x"; wasm.StreamData := nil_bytes |}]
       blockVals)
  = Panicked "Invalid input type".
Proof.
  apply (undeclared_input_panics (clockAt 101) "c101"
           (stateWith noEngine
              [blockInput; {| wasm.Type_ := wasm.OtherInputType 7;
                              wasm.Name := "x";
                              wasm.StreamData := nil_bytes |}]
              blockVals)).
  reflexivity.
Defined.



(** When [run] returns without error, the cache holds the mapper output
    under the block's number, and running the same block again (with any
    cursor) is a cache hit that changes nothing, calls nothing, and leaves
    the same output. *)
Theorem run_replay (clock : Clock) (cursor cursor' : string) (st st' : State) :
  run clock cursor st = Done (None, st') ->
  (exists item,
     outputs.kv (cache (base (executor st'))) !! Number clock = Some item
     /\ outputs.Payload item = mapperOutput (executor st'))
  /\ run clock cursor' st' = Done (None, st').
Proof.
  intros Hrun.
  assert (Hitem : exists item,
            outputs.kv (cache (base (executor st'))) !! Number clock = Some item
            /\ outputs.Payload item = mapperOutput (executor st')).
  { revert Hrun. unfold run, mbind, M_bind, getState, outputs.Get.
    destruct (outputs.kv _ !! Number clock) as [item|] eqn:Hkv; simpl.
    - intros [= <-]. simpl. by exists item.
    - destruct (wasmMapCall clock st) as [[[e|] st1]| |] eqn:Hmap;
        try discriminate.
      simpl. unfold liftOutcome, outputs.Set_.
      destruct (block.Contains _ _); simpl; [|discriminate].
      intros [= <-]. simpl. eexists. split; [apply lookup_insert_eq|done]. }
  split; [exact Hitem|]. destruct Hitem as (item & Hkv & Hpay).
  unfold run, mbind, M_bind, getState, outputs.Get. rewrite Hkv. simpl.
  rewrite Hpay. destruct st' as [[b o m] v e]. reflexivity.
Qed.

Lemma run_replay_witness :
  exists st',
    run (clockAt 101) "c101"
      (stateWith (engineOf (guestInstance None (slice [Byte.x2a])))
         [blockInput] blockVals)
    = Done (None, st')
    /\ mapperOutput (executor st') = slice [Byte.x2a]
    /\ run (clockAt 101) "other" st' = Done (None, st').
Proof.
  eexists. split; [vm_compute; reflexivity|]. split; [reflexivity|].
  apply (proj2 (run_replay (clockAt 101) "c101" "other"
                  (stateWith (engineOf (guestInstance None
                                          (slice [Byte.x2a])))
                     [blockInput] blockVals) _
                  ltac:(vm_compute; reflexivity))).
Defined.

(** [moduleOutputData] yields data exactly when the mapper output is not
    nil (an empty but non-nil output is data), typed by the module's output
    type; in particular a block whose execution was skipped for lack of
    input yields none. *)
Theorem moduleOutputData_spec (e : MapperModuleExecutor) :
  (moduleOutputData e = None <-> mapperOutput e = nil_bytes)
  /\ (forall data,
        moduleOutputData e = Some data ->
        TypeUrl data = ("type.googleapis.com/" ++ outputType e)%string
        /\ Value data = mapperOutput e)
  /\ (forall clock st st',
        executor st = e ->
        existsb undeclaredInput (wasmInputs (base e)) = false ->
        existsb (feedsInput (vals st)) (wasmInputs (base e)) = false ->
        wasmMapCall clock st = Done (None, st') ->
        moduleOutputData (executor st') = None).
Proof.
  unfold moduleOutputData. split; [|split].
  - destruct (mapperOutput e); split; done.
  - intros data. destruct (mapperOutput e); [discriminate|].
    by intros [= <-].
  - intros clock st st' <- Hdecl Hquiet. unfold wasmMapCall, mbind, M_bind.
    destruct (wasmCall clock st) as [[[vm err] st1]| |] eqn:Hcall;
      try discriminate.
    destruct (wasmCall_frame _ _ _ _ Hcall)
      as (_ & _ & _ & _ & _ & _ & _ & new & _ & _ & Hq & _).
    destruct (Hq Hquiet) as [_ [= -> ->]].
    unfold getState. simpl. by intros [= <-].
Qed.

Lemma moduleOutputData_spec_witness :
  exists st',
    wasmMapCall (clockAt 101) sampleState = Done (None, st')
    /\ moduleOutputData (executor st') = None.
Proof.
  eexists. split; [vm_compute; reflexivity|].
  apply (proj2 (proj2 (moduleOutputData_spec sampleExecutor))
           (clockAt 101) sampleState); [reflexivity..|].
  vm_compute. reflexivity.
Defined.

End ExecutorMore.

(** ** The client constructor *)

Section ClientMore.
Import client.

(** [NewSubstreamsClient] panics on a nil configuration; and without an xDS
    bootstrap file, asking for both [insecure] and [plaintext] is refused
    before any connection is attempted, whatever the dialer would answer. *)
Theorem NewSubstreamsClient_rejects {Conn : Type} (w : World Conn) :
  NewSubstreamsClient w None = Panicked "substreams client config not set"
  /\ (forall config,
        nonEmpty (Getenv w "GRPC_XDS_BOOTSTRAP") = false ->
        insecure config = true -> plaintext config = true ->
        NewSubstreamsClient w (Some config) = Done (inl MutuallyExclusive)).
Proof.
  split; [reflexivity|]. intros config Henv Hins Hplain.
  unfold NewSubstreamsClient. rewrite Henv, Hins, Hplain. reflexivity.
Qed.

Lemma NewSubstreamsClient_rejects_witness :
  NewSubstreamsClient
    {| Getenv := fun _ => EmptyString; NewClientCredentials := None;
       NewExternalClient := fun endpoint opts => inr (endpoint, opts) |}
    (Some (NewSubstreamsClientConfig "api.example:443" "token" true true))
  = Done (inl MutuallyExclusive).
Proof.
  apply (proj2 (NewSubstreamsClient_rejects
                  {| Getenv := fun _ => EmptyString;
                     NewClientCredentials := None;
                     NewExternalClient :=
                       fun endpoint opts => inr (endpoint, opts) |}));
    reflexivity.
Defined.

(** A client that [NewSubstreamsClient] returns carries the bearer token as
    per-call credentials exactly when a token is configured and the
    connection is not plain text; otherwise it carries no call option. *)
Theorem NewSubstreamsClient_auth {Conn : Type} (w : World Conn) config c :
  NewSubstreamsClient w (Some config) = Done (inr c) ->
  callOpts c
  = if nonEmpty (jwt config) && negb (plaintext config)
    then [PerRPCCredentials (jwt config) "Bearer"]
    else [].
Proof.
  unfold NewSubstreamsClient.
  destruct (nonEmpty (Getenv w _)); simpl.
  - destruct (NewClientCredentials w); [discriminate|].
    destruct (NewExternalClient w _ _); [discriminate|].
    intros [= <-]. simpl.
    by destruct (nonEmpty (jwt config)), (plaintext config).
  - destruct (insecure config && plaintext config); [discriminate|].
    destruct (NewExternalClient w _ _); [discriminate|].
    intros [= <-]. simpl.
    by destruct (nonEmpty (jwt config)), (plaintext config).
Qed.

Lemma NewSubstreamsClient_auth_witness :
  callOpts
    {| cli := ("api.example:443"%string,
               [WithUnaryInterceptor; WithStreamInterceptor]);
       callOpts := [PerRPCCredentials "token" "Bearer"] |}
  = if nonEmpty "token" && negb false
    then [PerRPCCredentials "token" "Bearer"]
    else [].
Proof.
  apply (NewSubstreamsClient_auth
           {| Getenv := fun _ => EmptyString; NewClientCredentials := None;
              NewExternalClient := fun endpoint opts => inr (endpoint, opts) |}
           (NewSubstreamsClientConfig "api.example:443" "token" true false)).
  reflexivity.
Defined.

(** The connection of a returned client was dialled at the configured
    endpoint with the two tracing interceptors, preceded by the xDS
    transport credentials when a bootstrap file is set and by nothing
    otherwise: the transport credentials chosen for [plaintext] or
    [insecure] do not reach the dialer. *)
Theorem NewSubstreamsClient_dial_options {Conn : Type} (w : World Conn)
    config c :
  NewSubstreamsClient w (Some config) = Done (inr c) ->
  NewExternalClient w (endpoint config)
    ((if nonEmpty (Getenv w "GRPC_XDS_BOOTSTRAP")
      then [WithTransportCredentials XDSCredentials] else [])
     ++ [WithUnaryInterceptor; WithStreamInterceptor])
  = inr (cli c).
Proof.
  unfold NewSubstreamsClient.
  destruct (nonEmpty (Getenv w _)); simpl.
  - destruct (NewClientCredentials w); [discriminate|].
    destruct (NewExternalClient w _ _) eqn:Hdial; [discriminate|].
    by intros [= <-].
  - destruct (insecure config && plaintext config); [discriminate|].
    destruct (NewExternalClient w _ _) eqn:Hdial; [discriminate|].
    by intros [= <-].
Qed.

Lemma NewSubstreamsClient_dial_options_witness :
  (fun endpoint opts => @inr string _ (endpoint, opts))
    "api.example:443"%string
    ((if nonEmpty EmptyString
      then [WithTransportCredentials XDSCredentials] else [])
     ++ [WithUnaryInterceptor; WithStreamInterceptor])
  = inr ("api.example:443"%string,
         [WithUnaryInterceptor; WithStreamInterceptor]).
Proof.
  apply (NewSubstreamsClient_dial_options
           {| Getenv := fun _ => EmptyString; NewClientCredentials := None;
              NewExternalClient := fun endpoint opts => inr (endpoint, opts) |}
           (NewSubstreamsClientConfig "api.example:443" "token" false true)
           {| cli := ("api.example:443"%string,
                      [WithUnaryInterceptor; WithStreamInterceptor]);
              callOpts := [] |}).
  reflexivity.
Defined.

End ClientMore.
